(** * ISOLDE: dihedral manager and restraints

    A shallow embedding of the C++ sources
      - [atomic_cpp/dihedral.h], [atomic_cpp/dihedral_mgr.{h,cpp}]
      - [restraints_cpp/position_restraints.{h,cpp}]
      - [restraints_cpp/distance_restraints.cpp]
      - [constants.h]

    Conventions.
      - A C++ pointer ([Atom*], [Residue*], [Dihedral*], [void*], ...) is an
        address, a [positive]; all objects live in one address space, which
        is what lets [destructors_done] look any of them up in one
        [std::set<void*>].
      - [std::unordered_map] is a [gmap], [std::set] a [gset], [std::vector]
        a [list].
      - A C++ [double] is idealised as a real number (rounding, infinities
        and NaN are outside the model); the one NaN the code stores on
        purpose, [NAN_NOT_SET], is the [None] of an [option R]. The
        clamps of the restraints are modelled a second time on [Double.t],
        which keeps NaN and the two infinities, in
        [Distance_Restraint_Double] and [Position_Restraint_Double]; the
        two models agree on real numbers.
      - A function that can throw returns a [Result]. *)

From Stdlib Require Import Reals Lra ZArith.
From stdpp Require Import gmap strings list fin_maps.

Abbreviation ptr := positive.

(** ** Exceptions *)

Inductive exception : Type :=
  | out_of_range (what : string)
  | runtime_error (what : string)
  | logic_error (what : string)
  | invalid_argument (what : string).

Inductive Result (A : Type) : Type :=
  | Ok (a : A)
  | Throw (e : exception).
Arguments Ok {A} a.
Arguments Throw {A} e.

(** ** constants.h *)

Module Constants.
Local Open Scope R_scope.
Definition TWO_PI : R := 2 * PI.
Definition LINEAR_RESTRAINT_MAX_RADIUS : R := 3 / 10.
Definition LINEAR_RESTRAINT_MIN_RADIUS : R := 25 / 1000.
Definition MAX_LINEAR_SPRING_CONSTANT : R := 100000.
Definition MIN_DISTANCE_RESTRAINT_TARGET : R := 1.
End Constants.

(** ** dihedral.h *)

Module Dihedral.
Import Constants.

(** [typedef Atom* Atoms[4]] *)
Definition Atoms : Type := ptr * ptr * ptr * ptr.

Record t : Type := mk {
  _atoms : Atoms;
  _name : string;                 (* = "" *)
  _residue : option ptr;          (* Residue*, [None] is nullptr *)
  _target_angle : option R;       (* [None] is NAN_NOT_SET *)
  _spring_constant : R            (* = 0 *)
}.

Definition atoms (d : t) : Atoms := _atoms d.
Definition name (d : t) : string := _name d.

Definition atom_list (d : t) : list ptr :=
  let '(a1, a2, a3, a4) := _atoms d in [a1; a2; a3; a4].

(** The dihedral [d] is built on atom [a]. *)
Definition references (d : t) (a : ptr) : Prop := a ∈ atom_list d.

Definition err_msg_no_residue : string :=
  "This dihedral has not been attached to a residue!".

(** Modelled from the spec: the body of [Dihedral::residue()] lives in
    dihedral.cpp, which is not among the sources. The header declares it
    next to [err_msg_no_residue], and its caller [add_dihedral] says
    "returns an error if no residue assigned" and catches
    [std::runtime_error]. *)
Definition residue (d : t) : Result ptr :=
  match _residue d with
  | Some r => Ok r
  | None => Throw (runtime_error err_msg_no_residue)
  end.

Definition set_name (n : string) (d : t) : t :=
  mk (_atoms d) n (_residue d) (_target_angle d) (_spring_constant d).
Definition set_residue (r : ptr) (d : t) : t :=
  mk (_atoms d) (_name d) (Some r) (_target_angle d) (_spring_constant d).
End Dihedral.

(** ** dihedral_mgr.h, dihedral_mgr.cpp *)

Module Dihedral_Mgr.

(** [typedef std::pair<std::vector<std::string>, std::vector<bool>> d_def] *)
Definition d_def : Type := list string * list bool.

(** The private members. [_atom_to_dihedral_map] and [_mapped_atoms] are
    declared by the header; no function of dihedral_mgr.cpp reads or
    writes them. *)
Record t : Type := mk {
  _residue_map : gmap ptr (gmap string ptr);           (* Rmap *)
  _residue_name_map : gmap string (gmap string d_def); (* Nmap *)
  _atom_to_dihedral_map : gmap ptr (gset ptr);         (* Atom_Map *)
  _mapped_atoms : gset ptr;
  _dihedrals : list ptr
}.

(** [Dihedral_Mgr() {}] *)
Definition empty : t := mk ∅ ∅ ∅ ∅ [].

Definition with_residue_name_map (nm : gmap string (gmap string d_def)) (m : t) : t :=
  mk (_residue_map m) nm (_atom_to_dihedral_map m) (_mapped_atoms m) (_dihedrals m).

(** [std::unordered_map::operator[]]: the entry is created, holding a
    default-constructed value, when the key is absent. *)
Definition subscript {K} `{Countable K} {V} (m : gmap K V) (k : K) (dflt : V)
  : V * gmap K V :=
  match m !! k with
  | Some v => (v, m)
  | None => (dflt, <[k := dflt]> m)
  end.

(** [add_dihedral_def]: [am.at(dname)] succeeding leads to the
    [runtime_error], which the handler for [out_of_range] does not catch;
    [am.at(dname)] throwing [out_of_range] leads to the handler, which
    stores the definition. *)
Definition add_dihedral_def (rname dname : string)
    (anames : list string) (externals : list bool) (m : t)
  : Result unit * t :=
  let '(am, nm) := subscript (_residue_name_map m) rname ∅ in
  match am !! dname with
  | Some dd =>
      (Throw (runtime_error "Dihedral definition already exists!"),
       with_residue_name_map nm m)
  | None =>
      let dd := (anames, externals) in
      (Ok tt, with_residue_name_map (<[rname := <[dname := dd]> am]> nm) m)
  end.

(** [get_dihedral_def]: [_residue_name_map.at(rname).at(dname)], either
    [at] throwing [out_of_range], which is caught and thrown anew. *)
Definition get_dihedral_def (rname dname : string) (m : t) : Result d_def :=
  match _residue_name_map m !! rname with
  | Some am =>
      match am !! dname with
      | Some dd => Ok dd
      | None => Throw (out_of_range "Unrecognised dihedral def!")
      end
  | None => Throw (out_of_range "Unrecognised dihedral def!")
  end.

(** [num_mapped_dihedrals]: the two nested loops, one [count++] for each
    entry of each inner map. *)
Definition num_mapped_dihedrals (m : t) : nat :=
  map_fold (λ _ (dm : gmap string ptr) count,
              map_fold (λ _ _ count, S count) count dm)
           0 (_residue_map m).

(** [add_dihedral]. The heap [h] gives the object behind each
    [Dihedral*]; the call is undefined ([None]) on a pointer to no
    object. *)
Definition add_dihedral (h : gmap ptr Dihedral.t) (d : ptr) (m : t) : option t :=
  obj ← h !! d;
  let ds := if decide (d ∈ _dihedrals m) then _dihedrals m
            else _dihedrals m ++ [d] in
  let rm :=
    match Dihedral.residue obj with
    | Ok r =>
        let name := Dihedral.name obj in
        if decide (name ≠ "") then
          let '(dm, rm) := subscript (_residue_map m) r ∅ in
          <[r := <[name := d]> dm]> rm
        else _residue_map m
    | Throw _ => _residue_map m
    end in
  Some (mk rm (_residue_name_map m) (_atom_to_dihedral_map m)
           (_mapped_atoms m) ds).

(** [destructors_done]. First loop: in every inner map the entries whose
    dihedral is in [destroyed] are erased, then the residue's entry is
    erased when the residue is in [destroyed]. Second loop: the destroyed
    dihedrals are erased from [_dihedrals]. Each entry is decided on its
    own, so the iteration order of the hash maps does not matter. *)
Definition destructors_done (destroyed : gset ptr) (m : t) : t :=
  let rm :=
    filter (λ kv : ptr * gmap string ptr, kv.1 ∉ destroyed)
      ((λ dm : gmap string ptr,
          filter (λ kv : string * ptr, kv.2 ∉ destroyed) dm)
         <$> _residue_map m) in
  mk rm (_residue_name_map m) (_atom_to_dihedral_map m) (_mapped_atoms m)
     (filter (λ d, d ∉ destroyed) (_dihedrals m)).

(** The dihedral [d] is mapped: some (residue, name) entry holds it. *)
Definition mapped (m : t) (d : ptr) : Prop :=
  ∃ r dm name, _residue_map m !! r = Some dm ∧ dm !! name = Some d.

(** The number of (residue, name) entries that [destructors_done] erases:
    those under a destroyed residue or holding a destroyed dihedral. *)
Definition num_erased (destroyed : gset ptr) (m : t) : nat :=
  map_fold (λ r (dm : gmap string ptr) count,
              count + size (filter (λ kv : string * ptr,
                                      r ∈ destroyed ∨ kv.2 ∈ destroyed) dm))
           0 (_residue_map m).

(** The managers that the calls of this file build, starting from the
    empty one. *)
Inductive reachable : t → Prop :=
  | reach_empty : reachable empty
  | reach_add_dihedral h d m m' :
      reachable m → add_dihedral h d m = Some m' → reachable m'
  | reach_add_dihedral_def rname dname anames externals m :
      reachable m →
      reachable (add_dihedral_def rname dname anames externals m).2
  | reach_destructors_done destroyed m :
      reachable m → reachable (destructors_done destroyed m).

End Dihedral_Mgr.

(** ** <cmath> *)

Module Cmath.
Local Open Scope R_scope.

(** The integer nearest to [q], the even one of the two when [q] lies
    halfway between them. *)
Definition rint_even (q : R) : Z :=
  let n := Int_part q in
  let f := frac_part q in
  if Rlt_dec f (1 / 2) then n
  else if Rlt_dec (1 / 2) f then (n + 1)%Z
  else if Z.even n then n else (n + 1)%Z.

(** [remainder(x, y)] of C99 (IEC 60559 remainder): [x - n*y] with [n] the
    integer nearest to the exact [x/y], ties to even. *)
Definition remainder (x y : R) : R := x - IZR (rint_even (x / y)) * y.

End Cmath.

(** ** dihedral.h: target angle *)

Module Dihedral_Target.
Import Constants Dihedral.

(** [const double &target() const] *)
Definition target (d : t) : option R := _target_angle d.

(** [void set_target(const double &val) { _target_angle = remainder(val, TWO_PI); }] *)
Definition set_target (val : R) (d : t) : t :=
  mk (_atoms d) (_name d) (_residue d)
     (Some (Cmath.remainder val TWO_PI)) (_spring_constant d).

Definition spring_constant (d : t) : R := _spring_constant d.
Definition set_spring_constant (val : R) (d : t) : t :=
  mk (_atoms d) (_name d) (_residue d) (_target_angle d) val.

End Dihedral_Target.

(** ** The host's atomic model (atomstruct) *)

Module Atomstruct.

(** [Coord]: three reals. *)
Definition Coord : Type := R * R * R.

(** What the host answers about an [Atom*] or a [Bond*]: [a->structure()],
    [a->element().number()], [a->coord()], [a->bonds()], [a->visible()] and
    [b->atoms()]. This code only reads it. *)
Class Host : Type := {
  structure : ptr → ptr;
  element_number : ptr → nat;
  coord : ptr → Coord;
  bonds : ptr → list ptr;
  visible : ptr → bool;
  bond_atoms : ptr → ptr * ptr
}.

End Atomstruct.

(** ** changetracker.h *)

Module Change_Tracker.

Inductive Reason : Type :=
  | REASON_TARGET_CHANGED
  | REASON_SPRING_CONSTANT_CHANGED
  | REASON_ENABLED_CHANGED.

(** One call received by the tracker. *)
Inductive Event : Type :=
  | Modified (mgr obj : ptr) (reason : Reason)
  | Created (mgr obj : ptr).

(** Modelled from the spec: changetracker.h and changetracker.cpp are not
    among the sources. The tracker is the log of the calls it has received
    since it was last drained, oldest first; [track_change] and
    [track_created] of a manager hand the object and the reason on to it,
    tagged with the manager's identity. The sets of reasons that the spec
    describes are a function of this log. *)
Definition t : Type := list Event.

Definition track_change (mgr obj : ptr) (reason : Reason) (ct : t) : t :=
  ct ++ [Modified mgr obj reason].

Definition track_created (mgr obj : ptr) (ct : t) : t :=
  ct ++ [Created mgr obj].

End Change_Tracker.

(** ** position_restraints.h, position_restraints.cpp: Position_Restraint

    A member function takes [this], the address of the object, next to the
    object's fields, and threads the change tracker. *)

Module Position_Restraint.
Import Constants Atomstruct Change_Tracker.
Local Open Scope R_scope.

Record t : Type := mk {
  _atom : ptr;
  _target : Coord;
  _mgr : ptr;
  _spring_constant : R;   (* = 0.0 *)
  _enabled : bool         (* = false *)
}.

Definition get_target (r : t) : Coord := _target r.
Definition get_k (r : t) : R := _spring_constant r.
Definition enabled (r : t) : bool := _enabled r.
Definition atom (r : t) : ptr := _atom r.

Definition set_target (this : ptr) (x y z : R) (r : t) (ct : Change_Tracker.t)
  : t * Change_Tracker.t :=
  (mk (_atom r) (x, y, z) (_mgr r) (_spring_constant r) (_enabled r),
   track_change (_mgr r) this REASON_TARGET_CHANGED ct).

(** The overload [set_target(Real *target)], which reads the three
    coordinates from an array. *)
Definition set_target_array (this : ptr) (target : Coord) (r : t)
    (ct : Change_Tracker.t) : t * Change_Tracker.t :=
  (mk (_atom r) target (_mgr r) (_spring_constant r) (_enabled r),
   track_change (_mgr r) this REASON_TARGET_CHANGED ct).

Definition set_k (this : ptr) (k : R) (r : t) (ct : Change_Tracker.t)
  : t * Change_Tracker.t :=
  (mk (_atom r) (_target r) (_mgr r)
      (if Rlt_dec k 0 then 0
       else if Rgt_dec k MAX_LINEAR_SPRING_CONSTANT
            then MAX_LINEAR_SPRING_CONSTANT else k)
      (_enabled r),
   track_change (_mgr r) this REASON_SPRING_CONSTANT_CHANGED ct).

Definition set_enabled (this : ptr) (flag : bool) (r : t) (ct : Change_Tracker.t)
  : t * Change_Tracker.t :=
  if decide (_enabled r ≠ flag) then
    (mk (_atom r) (_target r) (_mgr r) (_spring_constant r) flag,
     track_change (_mgr r) this REASON_ENABLED_CHANGED ct)
  else (r, ct).

Definition radius (r : t) : R :=
  _spring_constant r / MAX_LINEAR_SPRING_CONSTANT
    * (LINEAR_RESTRAINT_MAX_RADIUS - LINEAR_RESTRAINT_MIN_RADIUS)
    + LINEAR_RESTRAINT_MIN_RADIUS.

Definition visible `{Host} (r : t) : bool :=
  Atomstruct.visible (_atom r) && _enabled r.

(** [Position_Restraint(Atom* atom, const Coord& target, Position_Restraint_Mgr *mgr)]:
    the two members of the initialiser list, the in-class defaults for the
    spring constant and the flag, and the call of [set_target] in the body
    (which overwrites the default-constructed [_target]). *)
Definition construct (this atom : ptr) (target : Coord) (mgr : ptr)
    (ct : Change_Tracker.t) : t * Change_Tracker.t :=
  let '(x, y, z) := target in
  set_target this x y z (mk atom (0, 0, 0) mgr 0 false) ct.

End Position_Restraint.

(** ** position_restraints.cpp: Position_Restraint_Mgr_Base *)

Module Position_Restraint_Mgr.
Import Atomstruct Change_Tracker.

(** The manager, the restraint objects it owns ([heap], from the address
    of an object to its fields) and the change tracker it reports to. *)
Record t : Type := mk {
  _atomic_model : ptr;
  _atom_to_restraint : gmap ptr ptr;
  heap : gmap ptr Position_Restraint.t;
  _change_tracker : Change_Tracker.t
}.

Definition error_different_mol : string := "This atom is in the wrong structure!".
Definition error_hydrogen : string := "Restraints on hydrogen atoms are not allowed!".

(** [_new_restraint(Atom *atom, const Coord& target)]; [new] yields an
    address that holds no restraint yet. *)
Definition _new_restraint_at `{Host} (this atom : ptr) (target : Coord) (m : t)
  : Result ptr * t :=
  if decide (structure atom ≠ _atomic_model m) then
    (Throw (logic_error error_different_mol), m)
  else if decide (element_number atom = 1%nat) then
    (Throw (logic_error error_hydrogen), m)
  else
    let restraint : ptr := fresh (dom (heap m)) in
    let '(obj, ct) :=
      Position_Restraint.construct restraint atom target this (_change_tracker m) in
    (Ok restraint,
     mk (_atomic_model m)
        (<[atom := restraint]> (_atom_to_restraint m))
        (<[restraint := obj]> (heap m))
        (track_created this restraint ct)).

(** [_new_restraint(Atom *atom)] *)
Definition _new_restraint `{Host} (this atom : ptr) (m : t) : Result ptr * t :=
  _new_restraint_at this atom (coord atom) m.

(** [get_restraint(Atom *atom, bool create)]; the result [None] is
    [nullptr]. *)
Definition get_restraint `{Host} (this atom : ptr) (create : bool) (m : t)
  : Result (option ptr) * t :=
  match _atom_to_restraint m !! atom with
  | Some r => (Ok (Some r), m)
  | None =>
      if create then
        match _new_restraint this atom m with
        | (Ok r, m') => (Ok (Some r), m')
        | (Throw e, m') => (Throw e, m')
        end
      else (Ok None, m)
  end.

End Position_Restraint_Mgr.

(** ** distance_restraints.cpp: Distance_Restraint *)

Module Distance_Restraint.
Import Constants Atomstruct Change_Tracker.
Local Open Scope R_scope.

Record t : Type := mk {
  _atoms : ptr * ptr;
  _mgr : ptr;
  _target : R;
  _spring_constant : R;
  _enabled : bool
}.

(** What distance_restraints.h declares and the sources do not show: the
    text of [err_msg_bonded()] and the value a [Distance_Restraint] holds
    in [_target] before the first [set_target]. *)
Class Header : Type := {
  err_msg_bonded : string;
  _target_initial : R
}.

Definition atoms (r : t) : ptr * ptr := _atoms r.
Definition get_target (r : t) : R := _target r.
Definition get_k (r : t) : R := _spring_constant r.
Definition enabled (r : t) : bool := _enabled r.

Definition set_target (this : ptr) (target : R) (r : t) (ct : Change_Tracker.t)
  : t * Change_Tracker.t :=
  (mk (_atoms r) (_mgr r)
      (if Rlt_dec target MIN_DISTANCE_RESTRAINT_TARGET
       then MIN_DISTANCE_RESTRAINT_TARGET else target)
      (_spring_constant r) (_enabled r),
   track_change (_mgr r) this REASON_TARGET_CHANGED ct).

Definition set_k (this : ptr) (k : R) (r : t) (ct : Change_Tracker.t)
  : t * Change_Tracker.t :=
  (mk (_atoms r) (_mgr r) (_target r)
      (if Rlt_dec k 0 then 0
       else if Rgt_dec k MAX_LINEAR_SPRING_CONSTANT
            then MAX_LINEAR_SPRING_CONSTANT else k)
      (_enabled r),
   track_change (_mgr r) this REASON_SPRING_CONSTANT_CHANGED ct).

Definition set_enabled (this : ptr) (flag : bool) (r : t) (ct : Change_Tracker.t)
  : t * Change_Tracker.t :=
  if decide (_enabled r ≠ flag) then
    (mk (_atoms r) (_mgr r) (_target r) (_spring_constant r) flag,
     track_change (_mgr r) this REASON_ENABLED_CHANGED ct)
  else (r, ct).

Definition visible `{Host} (r : t) : bool :=
  Atomstruct.visible (_atoms r).1 && Atomstruct.visible (_atoms r).2 && _enabled r.

Definition radius (r : t) : R :=
  sqrt (_spring_constant r / MAX_LINEAR_SPRING_CONSTANT)
    * (LINEAR_RESTRAINT_MAX_RADIUS - LINEAR_RESTRAINT_MIN_RADIUS)
    + LINEAR_RESTRAINT_MIN_RADIUS.

(** The two loops of the constructor: some bond of [a1] has [a2] among
    its two atoms. *)
Definition bonded `{Host} (a1 a2 : ptr) : bool :=
  existsb (λ b, let '(x, y) := bond_atoms b in
                bool_decide (x = a2) || bool_decide (y = a2))
          (bonds a1).

(** Modelled from the spec: the in-class initialisers of
    [_spring_constant] and [_enabled] are in distance_restraints.h, which
    is not among the sources; the spec has a restraint start with "spring
    constant 0 / disabled".

    [Distance_Restraint(Atom *a1, Atom *a2, Distance_Restraint_Mgr_Tmpl<Distance_Restraint> *mgr)] *)
Definition construct `{Host} `{Header} (a1 a2 mgr : ptr) : Result t :=
  if bonded a1 a2 then Throw (logic_error err_msg_bonded)
  else Ok (mk (a1, a2) mgr _target_initial 0 false).

(** The constructor with [target] and [k], which delegates to the one
    above and then calls the three setters. *)
Definition construct_with `{Host} `{Header} (this a1 a2 mgr : ptr) (target k : R)
    (ct : Change_Tracker.t) : Result (t * Change_Tracker.t) :=
  match construct a1 a2 mgr with
  | Throw e => Throw e
  | Ok r0 =>
      let '(r1, ct1) := set_target this target r0 ct in
      let '(r2, ct2) := set_k this k r1 ct1 in
      Ok (set_enabled this false r2 ct2)
  end.

(** The operations that change a restraint once it is built. *)
Inductive op : Type :=
  | Set_target (target : R)
  | Set_k (k : R)
  | Set_enabled (flag : bool).

Definition step (this : ptr) (o : op) (s : t * Change_Tracker.t)
  : t * Change_Tracker.t :=
  match o with
  | Set_target target => set_target this target s.1 s.2
  | Set_k k => set_k this k s.1 s.2
  | Set_enabled flag => set_enabled this flag s.1 s.2
  end.

Definition run (this : ptr) (os : list op) (s : t * Change_Tracker.t)
  : t * Change_Tracker.t :=
  foldl (λ s o, step this o s) s os.

End Distance_Restraint.

(** ** Distance_Restraint_Mgr *)

Module Distance_Restraint_Mgr.
Import Atomstruct Change_Tracker.

Record t : Type := mk {
  _structure : ptr;
  _pair_to_restraint : gmap (ptr * ptr) ptr;
  heap : gmap ptr Distance_Restraint.t;
  _change_tracker : Change_Tracker.t
}.

Definition error_different_mol : string := "This atom is in the wrong structure!".

(** The restraint between two atoms, whichever way round they are given. *)
Definition find_restraint (a1 a2 : ptr) (m : t) : option ptr :=
  match _pair_to_restraint m !! (a1, a2) with
  | Some r => Some r
  | None => _pair_to_restraint m !! (a2, a1)
  end.

(** Modelled from the spec: [Distance_Restraint_Mgr::get_restraint] is in
    distance_restraints.h, which is not among the sources. Per the spec
    there is one restraint per pair of atoms; [get_restraint(atom, atom2,
    create)] "returns existing restraint or, if [create], constructs one
    with ... spring constant 0 / disabled" and "fails with DomainError if
    the atom belongs to a different structure than the manager's bound
    structure ... or the two atoms are directly bonded"; without [create]
    a missing restraint is a null result. The object is built by the
    constructor of distance_restraints.cpp, which is where the bonded pair
    is refused. *)
Definition get_restraint `{Host} `{Distance_Restraint.Header}
    (this a1 a2 : ptr) (create : bool) (m : t) : Result (option ptr) * t :=
  match find_restraint a1 a2 m with
  | Some r => (Ok (Some r), m)
  | None =>
      if create then
        if decide (structure a1 ≠ _structure m ∨ structure a2 ≠ _structure m) then
          (Throw (logic_error error_different_mol), m)
        else
          match Distance_Restraint.construct a1 a2 this with
          | Throw e => (Throw e, m)
          | Ok obj =>
              let restraint : ptr := fresh (dom (heap m)) in
              (Ok (Some restraint),
               mk (_structure m)
                  (<[(a1, a2) := restraint]> (_pair_to_restraint m))
                  (<[restraint := obj]> (heap m))
                  (_change_tracker m))
          end
      else (Ok None, m)
  end.

End Distance_Restraint_Mgr.

(** ** Sample data *)

Module Sample.
Local Open Scope positive_scope.

(** A dihedral named phi at address 10, on the atoms 1, 2, 3 and 4, owned
    by the residue at address 20. *)
Definition phi : Dihedral.t :=
  Dihedral.mk (1, 2, 3, 4) "phi" (Some 20) None 0%R.

Definition dihedral_heap : gmap ptr Dihedral.t := {[ 10 := phi ]}.

(** The manager after [add_dihedral] of that dihedral. *)
Definition mgr_phi : Dihedral_Mgr.t :=
  Dihedral_Mgr.mk {[ 20 := {[ "phi" := 10 ]} ]} ∅ ∅ ∅ [10].

(** A manager holding the definition of phi for ALA. *)
Definition phi_def : Dihedral_Mgr.d_def :=
  (["C"; "N"; "CA"; "C"], [true; false; false; false]).

Definition mgr_ala : Dihedral_Mgr.t :=
  (Dihedral_Mgr.add_dihedral_def "ALA" "phi" phi_def.1 phi_def.2
     Dihedral_Mgr.empty).2.

Import Atomstruct.

(** A host model: the atoms 1 to 4 and the bond 50 between atoms 1 and 2.
    Atoms 1, 2 and 3 are in the structure 100, atom 4 is in the structure
    200; atom 3 is a hydrogen, the others are carbons. *)
Definition host : Host := {|
  structure := λ a, if decide (a = 4) then 200 else 100;
  element_number := λ a, if decide (a = 3) then 1%nat else 6%nat;
  coord := λ a, (IZR (Zpos a), 0%R, 0%R);
  bonds := λ a, if decide (a = 1 ∨ a = 2) then [50] else [];
  visible := λ _, true;
  bond_atoms := λ _, (1, 2)
|}.

Definition header : Distance_Restraint.Header := {|
  Distance_Restraint.err_msg_bonded := "bonded";
  Distance_Restraint._target_initial := 0%R
|}.

(** A position restraint on atom 1, as the constructor leaves it, owned by
    the manager at address 30. *)
Definition position_restraint : Position_Restraint.t :=
  Position_Restraint.mk 1 (1%R, 0%R, 0%R) 30 0%R false.

(** A distance restraint between atoms 1 and 5, with target 2, spring
    constant 50, disabled, owned by the manager at address 31. *)
Definition distance_restraint : Distance_Restraint.t :=
  Distance_Restraint.mk (1, 5) 31 2%R 50%R false.

(** A position restraint manager bound to structure 100, with no
    restraint yet, and one that holds [position_restraint] at address 40. *)
Definition position_mgr : Position_Restraint_Mgr.t :=
  Position_Restraint_Mgr.mk 100 ∅ ∅ [].

Definition position_mgr_1 : Position_Restraint_Mgr.t :=
  Position_Restraint_Mgr.mk 100 {[ 1 := 40 ]} {[ 40 := position_restraint ]} [].

(** The same for distance restraints; the second holds a restraint
    between atoms 1 and 3 at address 41. *)
Definition distance_mgr : Distance_Restraint_Mgr.t :=
  Distance_Restraint_Mgr.mk 100 ∅ ∅ [].

Definition distance_mgr_13 : Distance_Restraint_Mgr.t :=
  Distance_Restraint_Mgr.mk 100 {[ (1, 3) := 41 ]}
    {[ 41 := Distance_Restraint.mk (1, 3) 31 2%R 0%R false ]} [].

End Sample.

(** Short names for the four restraint modules. *)
Module P := Position_Restraint.
Module D := Distance_Restraint.
Module PM := Position_Restraint_Mgr.
Module DM := Distance_Restraint_Mgr.

(** ** dihedral_mgr.h: what the residue map holds *)

Module Dihedral_Mgr_View.
Import Dihedral_Mgr.

(** The dihedral that [_residue_map] holds for a residue and a name. *)
Definition entry (m : t) (r : ptr) (name : string) : option ptr :=
  dm ← _residue_map m !! r; dm !! name.

(** [size_t size() const {return _residue_map.size();}] *)
Definition size (m : t) : nat := base.size (_residue_map m).

End Dihedral_Mgr_View.

(** ** position_restraints.cpp: the rest of Position_Restraint_Mgr_Base

    A loop over a container that dereferences the restraints it meets is a
    fold in the option monad: the call is undefined ([None]) when a pointer
    it dereferences holds no object. *)

Module Position_Restraint_Mgr_Base.
Import Atomstruct.
Local Open Scope R_scope.

(** [size_t num_restraints() const { return _atom_to_restraint.size(); }] *)
Definition num_restraints (m : PM.t) : nat := size (PM._atom_to_restraint m).

(** [Position_Restraint::target_vector]: the target minus the coordinate
    of the atom, component by component. *)
Definition target_vector `{Host} (r : P.t) : Coord :=
  let '(tx, ty, tz) := P._target r in
  let '(cx, cy, cz) := coord (P._atom r) in
  (tx - cx, ty - cy, tz - cz).

(** [visible_restraints]: one [push_back] for each entry whose restraint
    is visible, in the iteration order of the hash map. *)
Definition visible_restraints `{Host} (m : PM.t) : option (list ptr) :=
  map_fold (λ _ r acc,
              visibles ← acc;
              obj ← PM.heap m !! r;
              Some (if P.visible obj then visibles ++ [r] else visibles))
           (Some []) (PM._atom_to_restraint m).

(** One turn of the loop of [_delete_restraints]:
    [_atom_to_restraint.erase(r->atom()); delete r;] *)
Definition delete_one (r : ptr) (m : PM.t) : option PM.t :=
  obj ← PM.heap m !! r;
  Some (PM.mk (PM._atomic_model m)
              (delete (P.atom obj) (PM._atom_to_restraint m))
              (delete r (PM.heap m))
              (PM._change_tracker m)).

(** [_delete_restraints(const std::set<Position_Restraint *>& to_delete)] *)
Definition _delete_restraints (to_delete : gset ptr) (m : PM.t) : option PM.t :=
  set_fold (λ r acc, m' ← acc; delete_one r m') (Some m) to_delete.

(** [delete_restraints]: the same, inside a [DestructionBatcher] of the
    host. *)
Definition delete_restraints (to_delete : gset ptr) (m : PM.t) : option PM.t :=
  _delete_restraints to_delete m.

(** The first loop of [destructors_done]: the restraints whose atom is in
    [destroyed]. *)
Definition restraints_of_destroyed (destroyed : gset ptr) (m : PM.t)
  : option (gset ptr) :=
  map_fold (λ _ r acc,
              to_delete ← acc;
              obj ← PM.heap m !! r;
              Some (if decide (P.atom obj ∈ destroyed)
                    then {[ r ]} ∪ to_delete else to_delete))
           (Some ∅) (PM._atom_to_restraint m).

(** [destructors_done(const std::set<void *>& destroyed)] *)
Definition destructors_done (destroyed : gset ptr) (m : PM.t) : option PM.t :=
  to_delete ← restraints_of_destroyed destroyed m;
  _delete_restraints to_delete m.

(** A setter called on the restraint at address [r]: the object and the
    change tracker are replaced by what the setter returns. *)
Definition call (r : ptr) (f : P.t → Change_Tracker.t → P.t * Change_Tracker.t)
    (m : PM.t) : option PM.t :=
  obj ← PM.heap m !! r;
  let '(obj', ct) := f obj (PM._change_tracker m) in
  Some (PM.mk (PM._atomic_model m) (PM._atom_to_restraint m)
              (<[r := obj']> (PM.heap m)) ct).

(** The index and the objects agree: the entry of an atom holds a live
    restraint on that atom, and every live restraint is the entry of its
    atom. *)
Definition consistent (m : PM.t) : Prop :=
  (∀ a r, PM._atom_to_restraint m !! a = Some r →
     ∃ obj, PM.heap m !! r = Some obj ∧ P.atom obj = a)
  ∧ (∀ r obj, PM.heap m !! r = Some obj →
     PM._atom_to_restraint m !! P.atom obj = Some r).

(** The states of a manager at address [this]: built by the constructor
    and changed by [get_restraint], [delete_restraints], [destructors_done]
    and the setters of the restraints it owns. *)
Inductive reachable `{Host} (this : ptr) : PM.t → Prop :=
  | reach_new atomic_model ct : reachable this (PM.mk atomic_model ∅ ∅ ct)
  | reach_get_restraint atom create m :
      reachable this m →
      reachable this (PM.get_restraint this atom create m).2
  | reach_delete_restraints to_delete m m' :
      reachable this m → delete_restraints to_delete m = Some m' →
      reachable this m'
  | reach_destructors_done destroyed m m' :
      reachable this m → destructors_done destroyed m = Some m' →
      reachable this m'
  | reach_set_target r x y z m m' :
      reachable this m → call r (P.set_target r x y z) m = Some m' →
      reachable this m'
  | reach_set_k r k m m' :
      reachable this m → call r (P.set_k r k) m = Some m' →
      reachable this m'
  | reach_set_enabled r flag m m' :
      reachable this m → call r (P.set_enabled r flag) m = Some m' →
      reachable this m'.

End Position_Restraint_Mgr_Base.

(** ** OpenMM, as far as custom_forces.cpp calls it *)

Module OpenMM.

(** One bond of a [CustomBondForce]: its two particles and its per-bond
    parameters. *)
Record BondInfo : Type := mkBond {
  particle1 : Z;
  particle2 : Z;
  parameters : list R
}.

(** [OpenMM::CustomBondForce]: the number of per-bond parameters it
    declares and its bonds, in the order they were added. *)
Record CustomBondForce : Type := mkForce {
  numPerBondParameters : nat;
  bonds : list BondInfo
}.

Definition getNumPerBondParameters (f : CustomBondForce) : nat :=
  numPerBondParameters f.

(** [addBond] appends the bond and returns its index. *)
Definition addBond (p1 p2 : Z) (params : list R) (f : CustomBondForce)
  : Z * CustomBondForce :=
  (Z.of_nat (length (bonds f)),
   mkForce (numPerBondParameters f) (bonds f ++ [mkBond p1 p2 params])).

(** [getBondParameters] and [setBondParameters] throw an
    [OpenMMException] ([None]) for an index that is not the index of a
    bond. *)
Definition getBondParameters (index : Z) (f : CustomBondForce)
  : option BondInfo :=
  if decide (0 ≤ index)%Z then bonds f !! Z.to_nat index else None.

Definition setBondParameters (index : Z) (p1 p2 : Z) (params : list R)
    (f : CustomBondForce) : option CustomBondForce :=
  if decide (0 ≤ index < Z.of_nat (length (bonds f)))%Z
  then Some (mkForce (numPerBondParameters f)
               (<[Z.to_nat index := mkBond p1 p2 params]> (bonds f)))
  else None.

End OpenMM.

(** ** openmm/custom_forces.cpp: custombondforce_add_bonds and
    custombondforce_update_bond_parameters

    An array argument is the list of the items that the pointer can read;
    reading past its end is undefined ([None]). What the functions return
    to the caller is the force, the array of indices they filled and
    whether [molc_error()] was called, which is what the handler of every
    exception does. *)

Module Custom_Forces.
Import OpenMM.

(** [*p++], [n] times: the next [n] items and the rest of the array. *)
Definition read {A} (n : nat) (l : list A) : option (list A * list A) :=
  if decide (n ≤ length l) then Some (take n l, drop n l) else None.

Record added : Type := mkAdded {
  added_force : CustomBondForce;
  f_indices : list Z;
  added_error : bool
}.

(** The loop of [custombondforce_add_bonds], [n] turns to go. *)
Fixpoint add_bonds_loop (n n_params : nat) (p_indices : list Z)
    (params : list R) (f : CustomBondForce) (out : list Z) : option added :=
  match n with
  | O => Some (mkAdded f out false)
  | S n' =>
      '(param_vec, params') ← read n_params params;
      '(ps, p_indices') ← read 2 p_indices;
      match ps with
      | [p1; p2] =>
          let '(index, f') := addBond p1 p2 param_vec f in
          add_bonds_loop n' n_params p_indices' params' f' (out ++ [index])
      | _ => None
      end
  end.

Definition custombondforce_add_bonds (force : CustomBondForce) (n : nat)
    (p_indices : list Z) (params : list R) : option added :=
  add_bonds_loop n (getNumPerBondParameters force) p_indices params force [].

(** The loop of [custombondforce_update_bond_parameters]. The vector
    [param_vec] takes the size of the parameters that
    [getBondParameters] copies into it; its first [n_params] items are
    then overwritten from the array, which is undefined when it is
    shorter than that. The result is the force and whether
    [molc_error()] was called. *)
Fixpoint update_loop (n n_params : nat) (indices : list Z) (params : list R)
    (f : CustomBondForce) : option (CustomBondForce * bool) :=
  match n with
  | O => Some (f, false)
  | S n' =>
      '(this_index, indices') ← read 1 indices;
      match this_index with
      | [index] =>
          match getBondParameters index f with
          | None => Some (f, true)
          | Some b =>
              if decide (n_params ≤ length (parameters b)) then
                '(new, params') ← read n_params params;
                let param_vec := new ++ drop n_params (parameters b) in
                match setBondParameters index (particle1 b) (particle2 b)
                        param_vec f with
                | None => Some (f, true)
                | Some f' => update_loop n' n_params indices' params' f'
                end
              else None
          end
      | _ => None
      end
  end.

Definition custombondforce_update_bond_parameters (force : CustomBondForce)
    (n : nat) (indices : list Z) (params : list R)
  : option (CustomBondForce * bool) :=
  update_loop n (getNumPerBondParameters force) indices params force.

(** Every bond has as many parameters as the force declares. *)
Definition well_formed (f : CustomBondForce) : Prop :=
  Forall (λ b, length (parameters b) = numPerBondParameters f) (bonds f).

(** A force with two parameters for each bond and two bonds. *)
Definition sample_force : CustomBondForce :=
  mkForce 2 [mkBond 0 1 [1; 2]%R; mkBond 2 3 [3; 4]%R].

End Custom_Forces.

(** ** A double with its special values

    Where a property depends on what the code does with a NaN or an
    infinity, the [double] is not idealised as a real: it is NaN, one of
    the two infinities, or a finite value, and only the finite values are
    read as reals (no rounding, one zero). *)

Module Double.
Local Open Scope R_scope.

Inductive t : Type :=
  | NaN
  | NInf
  | Fin (x : R)
  | PInf.

(** [a < b]: false when either operand is NaN. *)
Definition lt (a b : t) : Prop :=
  match a, b with
  | NaN, _ | _, NaN => False
  | _, NInf => False
  | NInf, _ => True
  | PInf, _ => False
  | Fin x, Fin y => x < y
  | Fin _, PInf => True
  end.

(** [a > b] *)
Definition gt (a b : t) : Prop := lt b a.

(** [a <= b]: false when either operand is NaN. *)
Definition le (a b : t) : Prop :=
  match a, b with
  | NaN, _ | _, NaN => False
  | NInf, _ => True
  | _, PInf => True
  | _, NInf => False
  | PInf, _ => False
  | Fin x, Fin y => x <= y
  end.

Definition lt_dec (a b : t) : {lt a b} + {¬ lt a b}.
Proof.
  destruct a as [| |x|], b as [| |y|]; simpl;
    try (left; exact I); try (right; exact (λ H : False, H)).
  apply Rlt_dec.
Defined.

Definition gt_dec (a b : t) : {gt a b} + {¬ gt a b} := lt_dec b a.

(** [a / c] and [a * c] for a finite constant [c > 0], [a + c] for a
    finite constant [c]: a NaN stays a NaN and an infinity stays the
    infinity it is. *)
Definition div_const (a : t) (c : R) : t :=
  match a with Fin x => Fin (x / c) | _ => a end.

Definition mul_const (a : t) (c : R) : t :=
  match a with Fin x => Fin (x * c) | _ => a end.

Definition add_const (a : t) (c : R) : t :=
  match a with Fin x => Fin (x + c) | _ => a end.

(** [sqrt(a)]: NaN for a negative operand, minus infinity included. *)
Definition sqrt (a : t) : t :=
  match a with
  | NaN | NInf => NaN
  | Fin x => if Rlt_dec x 0 then NaN else Fin (R_sqrt.sqrt x)
  | PInf => PInf
  end.

End Double.

(** ** distance_restraints.cpp: Distance_Restraint, on doubles with their
    special values

    The same members as in [Distance_Restraint], with [_target] and
    [_spring_constant] as [Double.t]. *)

Module Distance_Restraint_Double.
Import Constants Atomstruct Change_Tracker.
Local Open Scope R_scope.

Record t : Type := mk {
  _atoms : ptr * ptr;
  _mgr : ptr;
  _target : Double.t;
  _spring_constant : Double.t;
  _enabled : bool
}.

Definition atoms (r : t) : ptr * ptr := _atoms r.
Definition get_target (r : t) : Double.t := _target r.
Definition get_k (r : t) : Double.t := _spring_constant r.
Definition enabled (r : t) : bool := _enabled r.

(** [_target = target < MIN_DISTANCE_RESTRAINT_TARGET ? MIN_DISTANCE_RESTRAINT_TARGET : target;] *)
Definition set_target (this : ptr) (target : Double.t) (r : t)
    (ct : Change_Tracker.t) : t * Change_Tracker.t :=
  (mk (_atoms r) (_mgr r)
      (if Double.lt_dec target (Double.Fin MIN_DISTANCE_RESTRAINT_TARGET)
       then Double.Fin MIN_DISTANCE_RESTRAINT_TARGET else target)
      (_spring_constant r) (_enabled r),
   track_change (_mgr r) this REASON_TARGET_CHANGED ct).

(** [_spring_constant = k<0 ? 0.0 : ( k > MAX_LINEAR_SPRING_CONSTANT ? MAX_LINEAR_SPRING_CONSTANT : k);] *)
Definition set_k (this : ptr) (k : Double.t) (r : t) (ct : Change_Tracker.t)
  : t * Change_Tracker.t :=
  (mk (_atoms r) (_mgr r) (_target r)
      (if Double.lt_dec k (Double.Fin 0) then Double.Fin 0
       else if Double.gt_dec k (Double.Fin MAX_LINEAR_SPRING_CONSTANT)
            then Double.Fin MAX_LINEAR_SPRING_CONSTANT else k)
      (_enabled r),
   track_change (_mgr r) this REASON_SPRING_CONSTANT_CHANGED ct).

Definition set_enabled (this : ptr) (flag : bool) (r : t) (ct : Change_Tracker.t)
  : t * Change_Tracker.t :=
  if decide (_enabled r ≠ flag) then
    (mk (_atoms r) (_mgr r) (_target r) (_spring_constant r) flag,
     track_change (_mgr r) this REASON_ENABLED_CHANGED ct)
  else (r, ct).

Definition radius (r : t) : Double.t :=
  Double.add_const
    (Double.mul_const
       (Double.sqrt (Double.div_const (_spring_constant r) MAX_LINEAR_SPRING_CONSTANT))
       (LINEAR_RESTRAINT_MAX_RADIUS - LINEAR_RESTRAINT_MIN_RADIUS))
    LINEAR_RESTRAINT_MIN_RADIUS.

(** Modelled from the spec: the in-class initialisers of [_target],
    [_spring_constant] and [_enabled] are in distance_restraints.h, which
    is not among the sources; as in [Distance_Restraint.construct], the
    first is the header's value and the spec has a restraint start with
    "spring constant 0 / disabled".

    [Distance_Restraint(Atom *a1, Atom *a2, Distance_Restraint_Mgr_Tmpl<Distance_Restraint> *mgr)] *)
Definition construct `{Host} `{Distance_Restraint.Header} (a1 a2 mgr : ptr)
  : Result t :=
  if Distance_Restraint.bonded a1 a2
  then Throw (logic_error Distance_Restraint.err_msg_bonded)
  else Ok (mk (a1, a2) mgr (Double.Fin Distance_Restraint._target_initial)
              (Double.Fin 0) false).

(** The constructor with [target] and [k], which delegates to the one
    above and then calls the three setters. *)
Definition construct_with `{Host} `{Distance_Restraint.Header}
    (this a1 a2 mgr : ptr) (target k : Double.t) (ct : Change_Tracker.t)
  : Result (t * Change_Tracker.t) :=
  match construct a1 a2 mgr with
  | Throw e => Throw e
  | Ok r0 =>
      let '(r1, ct1) := set_target this target r0 ct in
      let '(r2, ct2) := set_k this k r1 ct1 in
      Ok (set_enabled this false r2 ct2)
  end.

(** The operations that change a restraint once it is built. *)
Inductive op : Type :=
  | Set_target (target : Double.t)
  | Set_k (k : Double.t)
  | Set_enabled (flag : bool).

Definition step (this : ptr) (o : op) (s : t * Change_Tracker.t)
  : t * Change_Tracker.t :=
  match o with
  | Set_target target => set_target this target s.1 s.2
  | Set_k k => set_k this k s.1 s.2
  | Set_enabled flag => set_enabled this flag s.1 s.2
  end.

Definition run (this : ptr) (os : list op) (s : t * Change_Tracker.t)
  : t * Change_Tracker.t :=
  foldl (λ s o, step this o s) s os.


Definition k_is_number (o : op) : Prop :=
  match o with Set_k k => k ≠ Double.NaN | _ => True end.

(** A restraint of [Distance_Restraint], whose two doubles are reals, as
    a restraint here; and the same for an operation. *)
Definition of_real (r : Distance_Restraint.t) : t :=
  mk (Distance_Restraint._atoms r) (Distance_Restraint._mgr r)
     (Double.Fin (Distance_Restraint._target r))
     (Double.Fin (Distance_Restraint._spring_constant r))
     (Distance_Restraint._enabled r).

Definition op_of_real (o : Distance_Restraint.op) : op :=
  match o with
  | Distance_Restraint.Set_target target => Set_target (Double.Fin target)
  | Distance_Restraint.Set_k k => Set_k (Double.Fin k)
  | Distance_Restraint.Set_enabled flag => Set_enabled flag
  end.

End Distance_Restraint_Double.

(** ** position_restraints.cpp: the spring constant of a
    Position_Restraint, on doubles with their special values *)

Module Position_Restraint_Double.
Import Constants Atomstruct Change_Tracker.
Local Open Scope R_scope.

Record t : Type := mk {
  _atom : ptr;
  _target : Coord;
  _mgr : ptr;
  _spring_constant : Double.t;
  _enabled : bool
}.

Definition get_k (r : t) : Double.t := _spring_constant r.

(** [_spring_constant = k<0 ? 0.0 : ( k > MAX_LINEAR_SPRING_CONSTANT ? MAX_LINEAR_SPRING_CONSTANT : k);] *)
Definition set_k (this : ptr) (k : Double.t) (r : t) (ct : Change_Tracker.t)
  : t * Change_Tracker.t :=
  (mk (_atom r) (_target r) (_mgr r)
      (if Double.lt_dec k (Double.Fin 0) then Double.Fin 0
       else if Double.gt_dec k (Double.Fin MAX_LINEAR_SPRING_CONSTANT)
            then Double.Fin MAX_LINEAR_SPRING_CONSTANT else k)
      (_enabled r),
   track_change (_mgr r) this REASON_SPRING_CONSTANT_CHANGED ct).

Definition radius (r : t) : Double.t :=
  Double.add_const
    (Double.mul_const
       (Double.div_const (_spring_constant r) MAX_LINEAR_SPRING_CONSTANT)
       (LINEAR_RESTRAINT_MAX_RADIUS - LINEAR_RESTRAINT_MIN_RADIUS))
    LINEAR_RESTRAINT_MIN_RADIUS.

Definition of_real (r : Position_Restraint.t) : t :=
  mk (Position_Restraint._atom r) (Position_Restraint._target r)
     (Position_Restraint._mgr r)
     (Double.Fin (Position_Restraint._spring_constant r))
     (Position_Restraint._enabled r).

End Position_Restraint_Double.

Module DD := Distance_Restraint_Double.
Module PD := Position_Restraint_Double.

(** ** More sample data *)

Module Sample_More.
Local Open Scope positive_scope.

(** A position restraint on atom 1 after [set_enabled(true)], and one on
    atom 2 as the constructor leaves it; both owned by the manager at
    address 30. *)
Definition position_restraint_on : Position_Restraint.t :=
  Position_Restraint.mk 1 (1%R, 0%R, 0%R) 30 0%R true.

Definition position_restraint_off : Position_Restraint.t :=
  Position_Restraint.mk 2 (2%R, 0%R, 0%R) 30 0%R false.

(** A position restraint manager bound to structure 100 that holds the
    first at address 40 and the second at address 42. *)
Definition position_mgr_on : Position_Restraint_Mgr.t :=
  Position_Restraint_Mgr.mk 100 {[ 1 := 40; 2 := 42 ]}
    {[ 40 := position_restraint_on; 42 := position_restraint_off ]} [].

(** [Sample.distance_restraint] and [Sample.position_restraint] on
    doubles with their special values. *)
Definition distance_restraint : Distance_Restraint_Double.t :=
  Distance_Restraint_Double.of_real Sample.distance_restraint.

Definition position_restraint : Position_Restraint_Double.t :=
  Position_Restraint_Double.of_real Sample.position_restraint.

End Sample_More.

(** * Properties *)

(** ** Dihedral_Mgr *)

Module Dihedral_Mgr_Facts.
Import Dihedral_Mgr.

Lemma subscript_present {K} `{Countable K} {V} (m : gmap K V) k v dflt :
  m !! k = Some v → subscript m k dflt = (v, m).
Proof. intros Hk. unfold subscript. by rewrite Hk. Qed.

Lemma subscript_absent {K} `{Countable K} {V} (m : gmap K V) k dflt :
  m !! k = None → subscript m k dflt = (dflt, <[k := dflt]> m).
Proof. intros Hk. unfold subscript. by rewrite Hk. Qed.

Lemma with_residue_name_map_id m :
  with_residue_name_map (_residue_name_map m) m = m.
Proof. by destruct m. Qed.

(** [get_dihedral_def] answers [Ok] exactly on the pairs that the registry
    holds. *)
Lemma get_dihedral_def_Ok rname dname m dd :
  get_dihedral_def rname dname m = Ok dd ↔
  ∃ am, _residue_name_map m !! rname = Some am ∧ am !! dname = Some dd.
Proof.
  unfold get_dihedral_def. split.
  - destruct (_residue_name_map m !! rname) as [am|] eqn:Hr; [|done].
    destruct (am !! dname) as [dd'|] eqn:Hd; [|done].
    intros [= ->]. eauto.
  - intros (am & -> & ->). done.
Qed.

(** C8. [add_dihedral_def] on a (residue type, name) pair that has a
    definition throws the duplicate-definition error and leaves the manager,
    hence the registered definition, as it was; on a pair that
    [get_dihedral_def] does not recognise it returns normally and
    [get_dihedral_def] then yields the atom names and flags just given. *)
Theorem add_dihedral_def_spec rname dname anames externals m :
  (∀ dd, get_dihedral_def rname dname m = Ok dd →
     add_dihedral_def rname dname anames externals m
       = (Throw (runtime_error "Dihedral definition already exists!"), m)
     ∧ get_dihedral_def rname dname
         (add_dihedral_def rname dname anames externals m).2 = Ok dd)
  ∧ (get_dihedral_def rname dname m
       = Throw (out_of_range "Unrecognised dihedral def!") →
     (add_dihedral_def rname dname anames externals m).1 = Ok tt
     ∧ get_dihedral_def rname dname
         (add_dihedral_def rname dname anames externals m).2
       = Ok (anames, externals)).
Proof.
  split.
  - intros dd Hget.
    apply get_dihedral_def_Ok in Hget as Hreg. destruct Hreg as (am & Hr & Hd).
    assert (add_dihedral_def rname dname anames externals m
            = (Throw (runtime_error "Dihedral definition already exists!"), m))
      as Heq.
    { unfold add_dihedral_def. rewrite (subscript_present _ _ am) by done.
      rewrite Hd. by rewrite with_residue_name_map_id. }
    by rewrite Heq.
  - intros Hget. unfold add_dihedral_def, get_dihedral_def in *.
    destruct (_residue_name_map m !! rname) as [am|] eqn:Hr.
    + rewrite (subscript_present _ _ am) by done.
      destruct (am !! dname) as [dd|] eqn:Hd; [done|].
      simpl. by rewrite !lookup_insert_eq.
    + rewrite subscript_absent by done. rewrite lookup_empty.
      simpl. by rewrite !lookup_insert_eq.
Qed.

(** The two cases of C8 on the sample registry: ALA/phi is taken, ALA/psi
    is free. *)
Lemma add_dihedral_def_spec_witness :
  (add_dihedral_def "ALA" "phi" ["X"] [false] Sample.mgr_ala
     = (Throw (runtime_error "Dihedral definition already exists!"),
        Sample.mgr_ala)
   ∧ get_dihedral_def "ALA" "phi"
       (add_dihedral_def "ALA" "phi" ["X"] [false] Sample.mgr_ala).2
     = Ok Sample.phi_def)
  ∧ ((add_dihedral_def "ALA" "psi" ["X"] [false] Sample.mgr_ala).1 = Ok tt
     ∧ get_dihedral_def "ALA" "psi"
         (add_dihedral_def "ALA" "psi" ["X"] [false] Sample.mgr_ala).2
       = Ok (["X"], [false])).
Proof.
  split.
  - apply (proj1 (add_dihedral_def_spec "ALA" "phi" ["X"] [false] Sample.mgr_ala)).
    vm_compute. reflexivity.
  - apply (proj2 (add_dihedral_def_spec "ALA" "psi" ["X"] [false] Sample.mgr_ala)).
    vm_compute. reflexivity.
Defined.

(** Storing a definition leaves the definitions of all other pairs as
    they were. *)
Lemma add_dihedral_def_other rname dname anames externals m rname' dname' :
  (rname', dname') ≠ (rname, dname) →
  get_dihedral_def rname' dname'
    (add_dihedral_def rname dname anames externals m).2
  = get_dihedral_def rname' dname' m.
Proof.
  intros Hne. unfold add_dihedral_def, get_dihedral_def, subscript.
  destruct (_residue_name_map m !! rname) as [am|] eqn:Hr.
  - destruct (am !! dname) as [dd|] eqn:Hd; simpl; [done|].
    destruct (decide (rname' = rname)) as [->|Hr'].
    + rewrite lookup_insert_eq, Hr.
      rewrite lookup_insert_ne by congruence. done.
    + by rewrite lookup_insert_ne.
  - rewrite lookup_empty. simpl.
    destruct (decide (rname' = rname)) as [->|Hr'].
    + rewrite lookup_insert_eq, Hr.
      rewrite lookup_insert_ne by congruence. by rewrite lookup_empty.
    + by rewrite !lookup_insert_ne.
Qed.

(** *** The list of dihedrals *)

Lemma add_dihedral_Some h d m obj :
  h !! d = Some obj → is_Some (add_dihedral h d m).
Proof. intros Hd. unfold add_dihedral. rewrite Hd. simpl. eauto. Qed.

Lemma add_dihedral_dihedrals h d m m' :
  add_dihedral h d m = Some m' →
  _dihedrals m' = if decide (d ∈ _dihedrals m) then _dihedrals m
                  else _dihedrals m ++ [d].
Proof.
  unfold add_dihedral. destruct (h !! d) as [obj|]; [|done].
  simpl. by intros [= <-].
Qed.

(** No pointer is stored twice, whatever calls built the manager. *)
Lemma reachable_NoDup m : reachable m → NoDup (_dihedrals m).
Proof.
  induction 1 as [|h d m m' _ IH Hadd|rname dname anames externals m _ IH
                  |destroyed m _ IH].
  - apply NoDup_nil_2.
  - rewrite (add_dihedral_dihedrals _ _ _ _ Hadd). case_decide; [done|].
    apply NoDup_app. split_and!; [done| |apply NoDup_singleton].
    intros x Hx ->%list_elem_of_singleton. done.
  - unfold add_dihedral_def, subscript.
    destruct (_residue_name_map m !! rname) as [am|];
      [destruct (am !! dname)|rewrite lookup_empty]; done.
  - simpl. by apply NoDup_filter.
Qed.

Lemma NoDup_occurs_once (l : list ptr) d :
  NoDup l → d ∈ l → length (filter (λ x, x = d) l) = 1%nat.
Proof.
  induction 1 as [|x l Hx Hl IH]; [by intros ?%not_elem_of_nil|].
  intros [->|Hd]%elem_of_cons.
  - rewrite filter_cons_True by done. simpl. f_equal.
    apply length_zero_iff_nil, elem_of_nil_inv.
    intros y [-> Hy]%list_elem_of_filter. done.
  - rewrite filter_cons_False by (intros ->; done). by apply IH.
Qed.

(** C10. On a manager built by any sequence of calls, [add_dihedral] of a
    pointer that [_dihedrals] already holds returns, and leaves
    [_dihedrals] as it was: the same list, of the same length, in which the
    pointer occurs exactly once. *)
Theorem add_dihedral_stored_idempotent h d obj m :
  reachable m → h !! d = Some obj → d ∈ _dihedrals m →
  ∃ m', add_dihedral h d m = Some m'
        ∧ _dihedrals m' = _dihedrals m
        ∧ length (_dihedrals m') = length (_dihedrals m)
        ∧ length (filter (λ x, x = d) (_dihedrals m')) = 1%nat.
Proof.
  intros Hreach Hobj Hin.
  destruct (add_dihedral_Some h d m obj Hobj) as [m' Hadd].
  exists m'. split; [done|].
  pose proof (add_dihedral_dihedrals _ _ _ _ Hadd) as Hds.
  rewrite decide_True in Hds by done. rewrite Hds.
  split_and!; [done|done|].
  apply NoDup_occurs_once; [by apply reachable_NoDup|done].
Qed.

Lemma sample_mgr_phi_built :
  add_dihedral Sample.dihedral_heap 10 empty = Some Sample.mgr_phi.
Proof. vm_compute. reflexivity. Qed.

Lemma add_dihedral_stored_idempotent_witness :
  ∃ m', add_dihedral Sample.dihedral_heap 10 Sample.mgr_phi = Some m'
        ∧ _dihedrals m' = _dihedrals Sample.mgr_phi
        ∧ length (_dihedrals m') = length (_dihedrals Sample.mgr_phi)
        ∧ length (filter (λ x, x = 10%positive) (_dihedrals m')) = 1%nat.
Proof.
  apply (add_dihedral_stored_idempotent Sample.dihedral_heap 10 Sample.phi).
  - apply (reach_add_dihedral Sample.dihedral_heap 10 empty);
      [apply reach_empty|vm_compute; reflexivity].
  - vm_compute. reflexivity.
  - vm_compute. apply list_elem_of_here.
Defined.

(** A pointer that is not stored yet is appended. *)
Lemma add_dihedral_new h d m m' :
  add_dihedral h d m = Some m' → d ∉ _dihedrals m →
  _dihedrals m' = _dihedrals m ++ [d].
Proof.
  intros Hadd Hnin. rewrite (add_dihedral_dihedrals _ _ _ _ Hadd).
  by rewrite decide_False.
Qed.

(** *** The destruction callback *)

(** What [destructors_done] leaves under a residue: nothing when the
    residue is destroyed, otherwise the entries whose dihedral is not
    destroyed. *)
Lemma destructors_done_lookup destroyed m r :
  _residue_map (destructors_done destroyed m) !! r
  = if decide (r ∈ destroyed) then None
    else filter (λ kv : string * ptr, kv.2 ∉ destroyed) <$> (_residue_map m !! r).
Proof.
  simpl. rewrite map_lookup_filter, lookup_fmap.
  destruct (_residue_map m !! r) as [dm|]; simpl; [|by case_decide].
  case_decide.
  - by rewrite option_guard_False by (simpl; tauto).
  - by rewrite option_guard_True.
Qed.

(** The entries that survive are those whose residue and whose dihedral
    are both absent from [destroyed]; the atoms of the dihedral play no
    part. *)
Lemma destructors_done_entry destroyed m r name d :
  (∃ dm, _residue_map (destructors_done destroyed m) !! r = Some dm
         ∧ dm !! name = Some d)
  ↔ (∃ dm, _residue_map m !! r = Some dm ∧ dm !! name = Some d)
    ∧ (r ∉ destroyed) ∧ (d ∉ destroyed).
Proof.
  rewrite destructors_done_lookup. split.
  - intros (dm' & Hr & Hd). case_decide; [done|].
    destruct (_residue_map m !! r) as [dm|]; [|done].
    simpl in Hr. injection Hr as <-.
    apply map_lookup_filter_Some in Hd as [Hd Hnd]. eauto.
  - intros ((dm & Hr & Hd) & Hnr & Hnd). rewrite decide_False by done.
    rewrite Hr. simpl. eexists. split; [done|].
    by apply map_lookup_filter_Some.
Qed.

(** When neither a residue key, nor a mapped dihedral, nor a listed
    dihedral is in [destroyed], the callback changes nothing. *)
Lemma destructors_done_unrelated destroyed m :
  (∀ r dm, _residue_map m !! r = Some dm →
     (r ∉ destroyed) ∧ ∀ name d, dm !! name = Some d → d ∉ destroyed) →
  (∀ d, d ∈ _dihedrals m → d ∉ destroyed) →
  destructors_done destroyed m = m.
Proof.
  intros Hmap Hlist. destruct m as [rm nm am ma ds]. unfold destructors_done.
  simpl in *. f_equal.
  - rewrite map_filter_id.
    + rewrite <-(map_fmap_id rm) at 2. apply map_fmap_ext.
      intros r dm Hr. apply map_filter_id. intros name d Hd.
      by apply (proj2 (Hmap r dm Hr) name d).
    + intros r dm' Hr. rewrite lookup_fmap in Hr.
      destruct (rm !! r) as [dm|] eqn:Hrm; [|done].
      by apply (Hmap r dm).
  - induction ds as [|d ds IH]; [done|].
    rewrite filter_cons_True by (apply Hlist; left).
    f_equal. apply IH. intros d' Hd'. apply Hlist. by right.
Qed.

Lemma count_inner (dm : gmap string ptr) (count : nat) :
  map_fold (λ _ _ count, S count) count dm = (count + size dm)%nat.
Proof.
  induction dm as [|name d dm Hname IH] using map_ind.
  - rewrite map_fold_empty, map_size_empty. lia.
  - rewrite map_fold_insert_L by done.
    rewrite map_size_insert_None by done. lia.
Qed.

Lemma num_mapped_insert (rm : gmap ptr (gmap string ptr)) r dm :
  rm !! r = None →
  map_fold (λ _ (dm : gmap string ptr) count,
              map_fold (λ _ _ count, S count) count dm) 0%nat (<[r := dm]> rm)
  = (map_fold (λ _ (dm : gmap string ptr) count,
                 map_fold (λ _ _ count, S count) count dm) 0%nat rm
     + size dm)%nat.
Proof.
  intros Hr. rewrite map_fold_insert_L; [by rewrite count_inner| |done].
  intros. rewrite !count_inner. lia.
Qed.

Lemma num_erased_insert (destroyed : gset ptr) (rm : gmap ptr (gmap string ptr)) r dm :
  rm !! r = None →
  map_fold (λ r (dm : gmap string ptr) count,
              (count + size (filter (λ kv : string * ptr,
                                      r ∈ destroyed ∨ kv.2 ∈ destroyed) dm))%nat)
           0%nat (<[r := dm]> rm)
  = (map_fold (λ r (dm : gmap string ptr) count,
              (count + size (filter (λ kv : string * ptr,
                                      r ∈ destroyed ∨ kv.2 ∈ destroyed) dm))%nat)
           0%nat rm
     + size (filter (λ kv : string * ptr,
                       r ∈ destroyed ∨ kv.2 ∈ destroyed) dm))%nat.
Proof.
  intros Hr. rewrite map_fold_insert_L; [done| |done]. intros. lia.
Qed.

Lemma size_filter_split (destroyed : gset ptr) (dm : gmap string ptr) :
  (size (filter (λ kv : string * ptr, kv.2 ∉ destroyed) dm)
   + size (filter (λ kv : string * ptr, kv.2 ∈ destroyed) dm))%nat = size dm.
Proof.
  rewrite <-(map_filter_union_complement
               (λ kv : string * ptr, kv.2 ∉ destroyed) dm) at 3.
  rewrite map_size_disj_union by apply map_disjoint_filter_complement.
  f_equal. f_equal. apply map_filter_ext. intros name d _. simpl.
  split; [tauto|]. intros Hnn. by destruct (decide (d ∈ destroyed)).
Qed.

(** [num_mapped_dihedrals] goes down by the number of erased entries. *)
Lemma destructors_done_num_mapped destroyed m :
  (num_mapped_dihedrals (destructors_done destroyed m)
   + num_erased destroyed m)%nat = num_mapped_dihedrals m.
Proof.
  unfold num_mapped_dihedrals, num_erased. simpl.
  induction (_residue_map m) as [|r dm rm Hr IH] using map_ind.
  - by rewrite fmap_empty, map_filter_empty, !map_fold_empty.
  - rewrite fmap_insert, map_filter_insert. simpl.
    rewrite num_erased_insert, (num_mapped_insert rm) by done.
    case_decide as Hdec.
    + rewrite num_mapped_insert
        by (apply map_lookup_filter_None; left; by rewrite lookup_fmap, Hr).
      rewrite <-IH, <-(size_filter_split destroyed dm).
      assert (filter (λ kv : string * ptr, r ∈ destroyed ∨ kv.2 ∈ destroyed) dm
              = filter (λ kv : string * ptr, kv.2 ∈ destroyed) dm) as ->; [|lia].
      apply map_filter_ext. intros name d _. simpl. tauto.
    + rewrite delete_id by (by rewrite lookup_fmap, Hr).
      rewrite <-IH.
      rewrite (map_filter_id _ dm); [lia|].
      intros name d _. simpl. left. by destruct (decide (r ∈ destroyed)).
Qed.

(** C1, on the sample manager: one dihedral, on the atoms 1 to 4, mapped
    under its residue; the callback is told that atom 1 is destroyed. The
    dihedral references atom 1, and it stays mapped and listed: the
    manager is as it was, and [num_mapped_dihedrals] is still 1. *)
Theorem destructors_done_atom_not_purged :
  add_dihedral Sample.dihedral_heap 10 empty = Some Sample.mgr_phi
  ∧ Dihedral.references Sample.phi 1
  ∧ mapped Sample.mgr_phi 10
  ∧ destructors_done {[ 1%positive ]} Sample.mgr_phi = Sample.mgr_phi
  ∧ mapped (destructors_done {[ 1%positive ]} Sample.mgr_phi) 10
  ∧ num_mapped_dihedrals Sample.mgr_phi = 1%nat
  ∧ num_mapped_dihedrals (destructors_done {[ 1%positive ]} Sample.mgr_phi) = 1%nat.
Proof.
  assert (mapped Sample.mgr_phi 10) as Hmapped.
  { exists 20%positive, {[ "phi" := 10%positive ]}, "phi". by vm_compute. }
  assert (destructors_done {[ 1%positive ]} Sample.mgr_phi = Sample.mgr_phi)
    as Hsame by (vm_compute; reflexivity).
  split_and!.
  - vm_compute. reflexivity.
  - unfold Dihedral.references. simpl. apply list_elem_of_here.
  - done.
  - done.
  - by rewrite Hsame.
  - vm_compute. reflexivity.
  - vm_compute. reflexivity.
Qed.

End Dihedral_Mgr_Facts.

(** ** Restraints *)

Module Restraint_Facts.
Import Constants Change_Tracker.
Local Open Scope R_scope.

Lemma MAX_LINEAR_SPRING_CONSTANT_pos : 0 < MAX_LINEAR_SPRING_CONSTANT.
Proof. unfold MAX_LINEAR_SPRING_CONSTANT. lra. Qed.

(** *** The spring constant *)

(** C4. After [set_k(v)] the stored spring constant is 0 when [v < 0], is
    [MAX_LINEAR_SPRING_CONSTANT] when [v] exceeds it, and is [v] otherwise;
    for position restraints and for distance restraints. *)
Theorem set_k_clamps this v ct :
  (∀ r : P.t,
     (v < 0 → P.get_k (P.set_k this v r ct).1 = 0)
     ∧ (v > MAX_LINEAR_SPRING_CONSTANT →
        P.get_k (P.set_k this v r ct).1 = MAX_LINEAR_SPRING_CONSTANT)
     ∧ (¬ v < 0 → ¬ v > MAX_LINEAR_SPRING_CONSTANT →
        P.get_k (P.set_k this v r ct).1 = v))
  ∧ (∀ r : D.t,
     (v < 0 → D.get_k (D.set_k this v r ct).1 = 0)
     ∧ (v > MAX_LINEAR_SPRING_CONSTANT →
        D.get_k (D.set_k this v r ct).1 = MAX_LINEAR_SPRING_CONSTANT)
     ∧ (¬ v < 0 → ¬ v > MAX_LINEAR_SPRING_CONSTANT →
        D.get_k (D.set_k this v r ct).1 = v)).
Proof.
  pose proof MAX_LINEAR_SPRING_CONSTANT_pos as Hmax.
  split; intros r; simpl;
    destruct (Rlt_dec v 0) as [Hneg|Hneg];
    destruct (Rgt_dec v MAX_LINEAR_SPRING_CONSTANT) as [Hbig|Hbig];
    split_and!; intros; try done; lra.
Qed.

Lemma set_k_clamps_witness :
  P.get_k (P.set_k 40 (-1) Sample.position_restraint []).1 = 0
  ∧ P.get_k (P.set_k 40 200000 Sample.position_restraint []).1
    = MAX_LINEAR_SPRING_CONSTANT
  ∧ P.get_k (P.set_k 40 50 Sample.position_restraint []).1 = 50
  ∧ D.get_k (D.set_k 41 (-1) Sample.distance_restraint []).1 = 0
  ∧ D.get_k (D.set_k 41 200000 Sample.distance_restraint []).1
    = MAX_LINEAR_SPRING_CONSTANT
  ∧ D.get_k (D.set_k 41 50 Sample.distance_restraint []).1 = 50.
Proof.
  assert (¬ 50 > MAX_LINEAR_SPRING_CONSTANT) as H50
    by (unfold MAX_LINEAR_SPRING_CONSTANT; lra).
  assert (200000 > MAX_LINEAR_SPRING_CONSTANT) as H200000
    by (unfold MAX_LINEAR_SPRING_CONSTANT; lra).
  split_and!.
  - apply (proj1 (set_k_clamps 40%positive (-1) [])). lra.
  - apply (proj1 (set_k_clamps 40%positive 200000 [])). exact H200000.
  - apply (proj1 (set_k_clamps 40%positive 50 [])); [lra|exact H50].
  - apply (proj2 (set_k_clamps 41%positive (-1) [])). lra.
  - apply (proj2 (set_k_clamps 41%positive 200000 [])). exact H200000.
  - apply (proj2 (set_k_clamps 41%positive 50 [])); [lra|exact H50].
Defined.

(** The stored spring constant is within its range after [set_k]. *)
Lemma set_k_range this v ct :
  (∀ r : P.t,
     0 <= P.get_k (P.set_k this v r ct).1 <= MAX_LINEAR_SPRING_CONSTANT)
  ∧ (∀ r : D.t,
     0 <= D.get_k (D.set_k this v r ct).1 <= MAX_LINEAR_SPRING_CONSTANT).
Proof.
  pose proof MAX_LINEAR_SPRING_CONSTANT_pos as Hmax.
  split; intros r; simpl;
    destruct (Rlt_dec v 0); destruct (Rgt_dec v MAX_LINEAR_SPRING_CONSTANT);
    lra.
Qed.

(** *** What the setters report to the change tracker *)

Lemma reasons_distinct :
  REASON_TARGET_CHANGED ≠ REASON_SPRING_CONSTANT_CHANGED
  ∧ REASON_TARGET_CHANGED ≠ REASON_ENABLED_CHANGED
  ∧ REASON_SPRING_CONSTANT_CHANGED ≠ REASON_ENABLED_CHANGED.
Proof. split_and!; discriminate. Qed.

(** C2, as the code has it. [set_target] and [set_k] report to the change
    tracker on every call, with [REASON_TARGET_CHANGED] and
    [REASON_SPRING_CONSTANT_CHANGED], whether or not the value written
    differs from the stored one; [set_enabled] reports, with
    [REASON_ENABLED_CHANGED], exactly when the flag differs from the stored
    one, and reports nothing otherwise. For position restraints and for
    distance restraints. *)
Theorem setters_report this ct :
  (∀ (r : P.t) x y z k flag,
     (P.set_target this x y z r ct).2
       = ct ++ [Modified (P._mgr r) this REASON_TARGET_CHANGED]
     ∧ (P.set_target_array this (x, y, z) r ct).2
       = ct ++ [Modified (P._mgr r) this REASON_TARGET_CHANGED]
     ∧ (P.set_k this k r ct).2
       = ct ++ [Modified (P._mgr r) this REASON_SPRING_CONSTANT_CHANGED]
     ∧ (P.set_enabled this flag r ct).2
       = if decide (flag = P.enabled r) then ct
         else ct ++ [Modified (P._mgr r) this REASON_ENABLED_CHANGED])
  ∧ (∀ (r : D.t) target k flag,
     (D.set_target this target r ct).2
       = ct ++ [Modified (D._mgr r) this REASON_TARGET_CHANGED]
     ∧ (D.set_k this k r ct).2
       = ct ++ [Modified (D._mgr r) this REASON_SPRING_CONSTANT_CHANGED]
     ∧ (D.set_enabled this flag r ct).2
       = if decide (flag = D.enabled r) then ct
         else ct ++ [Modified (D._mgr r) this REASON_ENABLED_CHANGED]).
Proof.
  split; intros; split_and!; try reflexivity.
  - unfold P.set_enabled, P.enabled.
    destruct (P._enabled r), flag; reflexivity.
  - unfold D.set_enabled, D.enabled.
    destruct (D._enabled r), flag; reflexivity.
Qed.

(** C2 as the claim has it fails for [set_k] (and likewise [set_target]):
    the sample position restraint stores the spring constant 0, and
    [set_k(0)] on it, which stores 0 again, reports a change. *)
Lemma set_k_same_value_reported :
  P.get_k Sample.position_restraint = 0
  ∧ P.get_k (P.set_k 40 0 Sample.position_restraint []).1 = 0
  ∧ (P.set_k 40 0 Sample.position_restraint []).2
    = [Modified 30 40 REASON_SPRING_CONSTANT_CHANGED]
  ∧ ¬ ((P.set_k 40 0 Sample.position_restraint []).2 ≠ []
       ↔ P.get_k (P.set_k 40 0 Sample.position_restraint []).1
         ≠ P.get_k Sample.position_restraint).
Proof.
  assert (P.get_k (P.set_k 40 0 Sample.position_restraint []).1 = 0) as Hk.
  { simpl. destruct (Rlt_dec 0 0); [lra|].
    destruct (Rgt_dec 0 MAX_LINEAR_SPRING_CONSTANT) as [Hgt|]; [|done].
    unfold MAX_LINEAR_SPRING_CONSTANT in Hgt. lra. }
  split_and!; [reflexivity|exact Hk|reflexivity|].
  intros [Hrec _]. apply Hrec; [discriminate|].
  rewrite Hk. reflexivity.
Qed.

(** C9. Two calls of [set_enabled(flag)] in a row: the second changes
    neither the restraint nor the change tracker; the two together report
    [REASON_ENABLED_CHANGED] once when the flag differed from the stored
    one at the start, and nothing when it did not. For position restraints
    and for distance restraints. *)
Theorem set_enabled_twice this flag ct :
  (∀ r : P.t,
     P.set_enabled this flag (P.set_enabled this flag r ct).1
                             (P.set_enabled this flag r ct).2
       = P.set_enabled this flag r ct
     ∧ (P.enabled r ≠ flag →
        (P.set_enabled this flag (P.set_enabled this flag r ct).1
                                 (P.set_enabled this flag r ct).2).2
          = ct ++ [Modified (P._mgr r) this REASON_ENABLED_CHANGED])
     ∧ (P.enabled r = flag →
        (P.set_enabled this flag (P.set_enabled this flag r ct).1
                                 (P.set_enabled this flag r ct).2).2 = ct))
  ∧ (∀ r : D.t,
     D.set_enabled this flag (D.set_enabled this flag r ct).1
                             (D.set_enabled this flag r ct).2
       = D.set_enabled this flag r ct
     ∧ (D.enabled r ≠ flag →
        (D.set_enabled this flag (D.set_enabled this flag r ct).1
                                 (D.set_enabled this flag r ct).2).2
          = ct ++ [Modified (D._mgr r) this REASON_ENABLED_CHANGED])
     ∧ (D.enabled r = flag →
        (D.set_enabled this flag (D.set_enabled this flag r ct).1
                                 (D.set_enabled this flag r ct).2).2 = ct)).
Proof.
  split; intros r.
  - unfold P.set_enabled, P.enabled.
    destruct r as [a tg mg k en]; simpl.
    destruct en, flag; simpl; split_and!; intros; done.
  - unfold D.set_enabled, D.enabled.
    destruct r as [a mg tg k en]; simpl.
    destruct en, flag; simpl; split_and!; intros; done.
Qed.

(** The sample restraints are disabled: enabling twice reports once,
    disabling twice reports nothing. *)
Lemma set_enabled_twice_witness :
  (P.set_enabled 40 true (P.set_enabled 40 true Sample.position_restraint []).1
                         (P.set_enabled 40 true Sample.position_restraint []).2).2
    = [Modified 30 40 REASON_ENABLED_CHANGED]
  ∧ (P.set_enabled 40 false (P.set_enabled 40 false Sample.position_restraint []).1
                            (P.set_enabled 40 false Sample.position_restraint []).2).2
    = []
  ∧ (D.set_enabled 41 true (D.set_enabled 41 true Sample.distance_restraint []).1
                           (D.set_enabled 41 true Sample.distance_restraint []).2).2
    = [Modified 31 41 REASON_ENABLED_CHANGED]
  ∧ (D.set_enabled 41 false (D.set_enabled 41 false Sample.distance_restraint []).1
                            (D.set_enabled 41 false Sample.distance_restraint []).2).2
    = [].
Proof.
  split_and!.
  - apply (proj1 (proj2 (proj1 (set_enabled_twice 40%positive true [])
                          Sample.position_restraint))).
    simpl. discriminate.
  - apply (proj2 (proj2 (proj1 (set_enabled_twice 40%positive false [])
                          Sample.position_restraint))).
    reflexivity.
  - apply (proj1 (proj2 (proj2 (set_enabled_twice 41%positive true [])
                          Sample.distance_restraint))).
    simpl. discriminate.
  - apply (proj2 (proj2 (proj2 (set_enabled_twice 41%positive false [])
                          Sample.distance_restraint))).
    reflexivity.
Defined.

(** *** The radius *)

(** C6. The radius of a distance restraint is the square root of
    [k / MAX_LINEAR_SPRING_CONSTANT], that of a position restraint is
    [k / MAX_LINEAR_SPRING_CONSTANT] itself, scaled by the difference of
    the two radii and shifted by the smaller one, [k] being the stored
    spring constant; so it is for the [k] given to [set_k], when that is
    within the range of the spring constant. *)
Theorem radius_formula :
  (∀ r : D.t,
     D.radius r
     = sqrt (D.get_k r / MAX_LINEAR_SPRING_CONSTANT)
       * (LINEAR_RESTRAINT_MAX_RADIUS - LINEAR_RESTRAINT_MIN_RADIUS)
       + LINEAR_RESTRAINT_MIN_RADIUS)
  ∧ (∀ r : P.t,
     P.radius r
     = P.get_k r / MAX_LINEAR_SPRING_CONSTANT
       * (LINEAR_RESTRAINT_MAX_RADIUS - LINEAR_RESTRAINT_MIN_RADIUS)
       + LINEAR_RESTRAINT_MIN_RADIUS)
  ∧ (∀ this k (r : D.t) ct,
     0 <= k <= MAX_LINEAR_SPRING_CONSTANT →
     D.radius (D.set_k this k r ct).1
     = sqrt (k / MAX_LINEAR_SPRING_CONSTANT)
       * (LINEAR_RESTRAINT_MAX_RADIUS - LINEAR_RESTRAINT_MIN_RADIUS)
       + LINEAR_RESTRAINT_MIN_RADIUS)
  ∧ (∀ this k (r : P.t) ct,
     0 <= k <= MAX_LINEAR_SPRING_CONSTANT →
     P.radius (P.set_k this k r ct).1
     = k / MAX_LINEAR_SPRING_CONSTANT
       * (LINEAR_RESTRAINT_MAX_RADIUS - LINEAR_RESTRAINT_MIN_RADIUS)
       + LINEAR_RESTRAINT_MIN_RADIUS).
Proof.
  split_and!; try (intros r; reflexivity).
  - intros this k r ct [Hlo Hhi]. unfold D.radius, D.set_k. simpl.
    destruct (Rlt_dec k 0); [lra|].
    destruct (Rgt_dec k MAX_LINEAR_SPRING_CONSTANT); [lra|]. reflexivity.
  - intros this k r ct [Hlo Hhi]. unfold P.radius, P.set_k. simpl.
    destruct (Rlt_dec k 0); [lra|].
    destruct (Rgt_dec k MAX_LINEAR_SPRING_CONSTANT); [lra|]. reflexivity.
Qed.

(** The sample restraints after [set_k(50)]. *)
Lemma radius_formula_witness :
  D.radius (D.set_k 41 50 Sample.distance_restraint []).1
  = sqrt (50 / MAX_LINEAR_SPRING_CONSTANT)
    * (LINEAR_RESTRAINT_MAX_RADIUS - LINEAR_RESTRAINT_MIN_RADIUS)
    + LINEAR_RESTRAINT_MIN_RADIUS
  ∧ P.radius (P.set_k 40 50 Sample.position_restraint []).1
    = 50 / MAX_LINEAR_SPRING_CONSTANT
      * (LINEAR_RESTRAINT_MAX_RADIUS - LINEAR_RESTRAINT_MIN_RADIUS)
      + LINEAR_RESTRAINT_MIN_RADIUS.
Proof.
  assert (0 <= 50 <= MAX_LINEAR_SPRING_CONSTANT) as H50
    by (unfold MAX_LINEAR_SPRING_CONSTANT; lra).
  split.
  - apply (proj1 (proj2 (proj2 radius_formula)) 41%positive 50
             Sample.distance_restraint [] H50).
  - apply (proj2 (proj2 (proj2 radius_formula)) 40%positive 50
             Sample.position_restraint [] H50).
Defined.

(** With the numbers of constants.h. *)
Lemma radius_numbers :
  (∀ r : D.t, D.radius r = sqrt (D.get_k r / 100000) * (275 / 1000) + 25 / 1000)
  ∧ (∀ r : P.t, P.radius r = P.get_k r / 100000 * (275 / 1000) + 25 / 1000).
Proof.
  split; intros r; unfold D.radius, P.radius, D.get_k, P.get_k,
    MAX_LINEAR_SPRING_CONSTANT, LINEAR_RESTRAINT_MAX_RADIUS,
    LINEAR_RESTRAINT_MIN_RADIUS; lra.
Qed.

(** After [set_k] of a real number the radius lies between the two
    configured radii. *)
Lemma radius_range this v ct :
  (∀ r : D.t,
     LINEAR_RESTRAINT_MIN_RADIUS <= D.radius (D.set_k this v r ct).1
       <= LINEAR_RESTRAINT_MAX_RADIUS)
  ∧ (∀ r : P.t,
     LINEAR_RESTRAINT_MIN_RADIUS <= P.radius (P.set_k this v r ct).1
       <= LINEAR_RESTRAINT_MAX_RADIUS).
Proof.
  pose proof MAX_LINEAR_SPRING_CONSTANT_pos as Hmax.
  split; intros r.
  - pose proof (proj2 (set_k_range this v ct) r) as [Hlo Hhi].
    unfold D.radius. unfold D.get_k in Hlo, Hhi.
    set (k := D._spring_constant _) in *.
    assert (0 <= k / MAX_LINEAR_SPRING_CONSTANT <= 1) as [Hq0 Hq1].
    { split.
      - apply Rmult_le_reg_r with MAX_LINEAR_SPRING_CONSTANT; [done|].
        unfold Rdiv. rewrite Rmult_assoc, Rinv_l by lra. lra.
      - apply Rmult_le_reg_r with MAX_LINEAR_SPRING_CONSTANT; [done|].
        unfold Rdiv. rewrite Rmult_assoc, Rinv_l by lra. lra. }
    pose proof (sqrt_pos (k / MAX_LINEAR_SPRING_CONSTANT)) as Hs0.
    assert (sqrt (k / MAX_LINEAR_SPRING_CONSTANT) <= 1) as Hs1.
    { rewrite <-sqrt_1. by apply sqrt_le_1_alt. }
    unfold LINEAR_RESTRAINT_MAX_RADIUS, LINEAR_RESTRAINT_MIN_RADIUS. nra.
  - pose proof (proj1 (set_k_range this v ct) r) as [Hlo Hhi].
    unfold P.radius. unfold P.get_k in Hlo, Hhi.
    set (k := P._spring_constant _) in *.
    assert (0 <= k / MAX_LINEAR_SPRING_CONSTANT <= 1) as [Hq0 Hq1].
    { split.
      - apply Rmult_le_reg_r with MAX_LINEAR_SPRING_CONSTANT; [done|].
        unfold Rdiv. rewrite Rmult_assoc, Rinv_l by lra. lra.
      - apply Rmult_le_reg_r with MAX_LINEAR_SPRING_CONSTANT; [done|].
        unfold Rdiv. rewrite Rmult_assoc, Rinv_l by lra. lra. }
    unfold LINEAR_RESTRAINT_MAX_RADIUS, LINEAR_RESTRAINT_MIN_RADIUS. nra.
Qed.

(** *** The constructor of a distance restraint *)

(** The constructor on the sample host does return a restraint for the
    atoms 1 and 3, with the target at the floor ([1/2] was asked for), and
    throws for the bonded atoms 1 and 2. *)
Lemma construct_with_sample :
  (∃ s, @D.construct_with Sample.host Sample.header 41 1 3 31 (1 / 2) 50 []
        = Ok s
        ∧ D.get_target s.1 = MIN_DISTANCE_RESTRAINT_TARGET
        ∧ D.get_k s.1 = 50 ∧ D.enabled s.1 = false)
  ∧ @D.construct_with Sample.host Sample.header 41 1 2 31 2 50 []
    = Throw (logic_error "bonded").
Proof.
  split; [|reflexivity].
  eexists. split; [reflexivity|]. simpl.
  destruct (Rlt_dec (1 / 2) MIN_DISTANCE_RESTRAINT_TARGET) as [|Hn];
    [|unfold MIN_DISTANCE_RESTRAINT_TARGET in Hn; lra].
  destruct (Rlt_dec 50 0); [lra|].
  destruct (Rgt_dec 50 MAX_LINEAR_SPRING_CONSTANT) as [Hgt|];
    [unfold MAX_LINEAR_SPRING_CONSTANT in Hgt; lra|done].
Qed.

End Restraint_Facts.

(** ** The target angle of a dihedral *)

Module Dihedral_Target_Facts.
Import Constants Cmath Dihedral_Target.
Local Open Scope R_scope.

(** [rint_even q] is within one half of [q]. *)
Lemma rint_even_near q : -(1 / 2) <= q - IZR (rint_even q) <= 1 / 2.
Proof.
  unfold rint_even.
  pose proof (base_fp q) as [Hf0 Hf1]. unfold frac_part in *.
  destruct (Rlt_dec (q - IZR (Int_part q)) (1 / 2)) as [Hlo|Hlo]; [lra|].
  destruct (Rlt_dec (1 / 2) (q - IZR (Int_part q))) as [Hhi|Hhi].
  - rewrite plus_IZR. lra.
  - destruct (Z.even (Int_part q)); [lra|]. rewrite plus_IZR. lra.
Qed.

Lemma rint_even_minus_half : rint_even (-(1 / 2)) = 0%Z.
Proof.
  assert (Int_part (-(1 / 2)) = (-1)%Z) as Hint.
  { symmetry. apply Int_part_spec. simpl. lra. }
  unfold rint_even, frac_part. rewrite Hint. simpl.
  destruct (Rlt_dec (-(1 / 2) - -1) (1 / 2)); [lra|].
  destruct (Rlt_dec (1 / 2) (-(1 / 2) - -1)); [lra|]. reflexivity.
Qed.

(** The remainder by a positive [y] is at most [y/2] in absolute value,
    and differs from [x] by a multiple of [y]. *)
Lemma remainder_range x y :
  0 < y → -(y / 2) <= remainder x y <= y / 2.
Proof.
  intros Hy. unfold remainder.
  pose proof (rint_even_near (x / y)) as Hnear.
  set (n := IZR (rint_even (x / y))) in *.
  assert (x - n * y = (x / y - n) * y) as -> by (field; lra).
  nra.
Qed.

Lemma remainder_multiple x y :
  x - remainder x y = IZR (rint_even (x / y)) * y.
Proof. unfold remainder. ring. Qed.

Lemma TWO_PI_pos : 0 < TWO_PI.
Proof. unfold TWO_PI. pose proof PI_RGT_0. lra. Qed.

(** C5, as the code has it. [set_target(x)] followed by [target()] yields
    a value in the closed interval from -π to π that differs from [x] by an
    integer multiple of 2π. *)
Theorem set_target_wraps d x :
  ∃ (y : R) (n : Z),
    target (set_target x d) = Some y
    ∧ - PI <= y <= PI
    ∧ x - y = IZR n * (2 * PI).
Proof.
  exists (remainder x TWO_PI), (rint_even (x / TWO_PI)).
  split; [reflexivity|].
  pose proof (remainder_range x TWO_PI TWO_PI_pos) as Hrange.
  split; [unfold TWO_PI in Hrange at 1 4; lra|].
  apply remainder_multiple.
Qed.

(** C5 as the claim has it fails at -π: [set_target(-π)] followed by
    [target()] yields -π, which is outside the interval open at -π. *)
Lemma set_target_minus_pi :
  target (set_target (- PI) Sample.phi) = Some (- PI)
  ∧ ¬ (∃ y, target (set_target (- PI) Sample.phi) = Some y
            ∧ - PI < y <= PI).
Proof.
  assert (target (set_target (- PI) Sample.phi) = Some (- PI)) as Htarget.
  { unfold target, set_target. simpl. f_equal. unfold remainder, TWO_PI.
    pose proof PI_RGT_0 as Hpi.
    assert (- PI / (2 * PI) = -(1 / 2)) as -> by (field; lra).
    rewrite rint_even_minus_half. lra. }
  split; [done|].
  intros (y & Hy & Hlt & _). rewrite Htarget in Hy. injection Hy as <-. lra.
Qed.

(** π itself is kept. *)
Lemma set_target_pi :
  target (set_target PI Sample.phi) = Some PI.
Proof.
  unfold target, set_target. simpl. f_equal. unfold remainder, TWO_PI.
  pose proof PI_RGT_0 as Hpi.
  assert (PI / (2 * PI) = 1 / 2) as -> by (field; lra).
  assert (rint_even (1 / 2) = 0%Z) as ->; [|lra].
  assert (Int_part (1 / 2) = 0%Z) as Hint.
  { symmetry. apply Int_part_spec. simpl. lra. }
  unfold rint_even, frac_part. rewrite Hint. simpl.
  destruct (Rlt_dec (1 / 2 - 0) (1 / 2)); [lra|].
  destruct (Rlt_dec (1 / 2) (1 / 2 - 0)); [lra|]. reflexivity.
Qed.

End Dihedral_Target_Facts.

(** ** The restraint managers *)

Module Restraint_Mgr_Facts.
Import Atomstruct Change_Tracker.
Local Open Scope R_scope.

(** The address that [new] yields holds no object yet. *)
Lemma fresh_unused {V} (h : gmap ptr V) : h !! fresh (dom h) = None.
Proof. apply not_elem_of_dom, is_fresh. Qed.

(** What [_new_restraint] builds for an atom of the manager's structure
    that is not a hydrogen. *)
Lemma new_restraint_ok `{Host} this atom m :
  structure atom = PM._atomic_model m → element_number atom ≠ 1%nat →
  ∃ r obj m',
    PM._new_restraint this atom m = (Ok r, m')
    ∧ PM.heap m !! r = None
    ∧ PM.heap m' !! r = Some obj
    ∧ PM._atom_to_restraint m' !! atom = Some r
    ∧ P.atom obj = atom
    ∧ P.get_k obj = 0
    ∧ P.enabled obj = false
    ∧ P.get_target obj = coord atom.
Proof.
  intros Hstruct Helem. unfold PM._new_restraint, PM._new_restraint_at.
  rewrite decide_False by (intros Hne; by apply Hne).
  rewrite decide_False by done.
  unfold P.construct. destruct (coord atom) as [[x y] z]. simpl.
  eexists _, _, _. split; [reflexivity|]. simpl.
  split; [apply fresh_unused|].
  split; [apply lookup_insert_eq|].
  split; [apply lookup_insert_eq|].
  split_and!; reflexivity.
Qed.

(** What the constructor of a distance restraint builds for two atoms
    that are not bonded. *)
Lemma construct_ok `{Host} `{D.Header} a1 a2 mgr :
  D.bonded a1 a2 = false →
  ∃ obj, D.construct a1 a2 mgr = Ok obj
         ∧ D.atoms obj = (a1, a2) ∧ D.get_k obj = 0 ∧ D.enabled obj = false.
Proof.
  intros Hb. unfold D.construct. rewrite Hb. eexists. done.
Qed.

(** C3. [get_restraint] returns the restraint that exists for the atom
    (the pair of atoms); returns null, and throws nothing, when there is
    none and [create] is false; and when there is none and [create] is
    true it throws [logic_error] for an atom of another structure than the
    manager's, for a hydrogen (position case) and for two bonded atoms
    (distance case), and otherwise returns a new restraint, registered for
    the atom (the pair), with spring constant 0, disabled, and (position
    case) with the coordinate of the atom as its target. *)
Theorem get_restraint_spec (host : Host) (header : D.Header) this create :
  (∀ atom (m : PM.t),
     (∀ r, PM._atom_to_restraint m !! atom = Some r →
        PM.get_restraint this atom create m = (Ok (Some r), m))
     ∧ (PM._atom_to_restraint m !! atom = None → create = false →
        PM.get_restraint this atom create m = (Ok None, m))
     ∧ (PM._atom_to_restraint m !! atom = None → create = true →
        structure atom ≠ PM._atomic_model m →
        PM.get_restraint this atom create m
          = (Throw (logic_error PM.error_different_mol), m))
     ∧ (PM._atom_to_restraint m !! atom = None → create = true →
        structure atom = PM._atomic_model m → element_number atom = 1%nat →
        PM.get_restraint this atom create m
          = (Throw (logic_error PM.error_hydrogen), m))
     ∧ (PM._atom_to_restraint m !! atom = None → create = true →
        structure atom = PM._atomic_model m → element_number atom ≠ 1%nat →
        ∃ r obj m',
          PM.get_restraint this atom create m = (Ok (Some r), m')
          ∧ PM.heap m !! r = None
          ∧ PM.heap m' !! r = Some obj
          ∧ PM._atom_to_restraint m' !! atom = Some r
          ∧ P.atom obj = atom
          ∧ P.get_k obj = 0
          ∧ P.enabled obj = false
          ∧ P.get_target obj = coord atom))
  ∧ (∀ a1 a2 (m : DM.t),
     (∀ r, DM.find_restraint a1 a2 m = Some r →
        DM.get_restraint this a1 a2 create m = (Ok (Some r), m))
     ∧ (DM.find_restraint a1 a2 m = None → create = false →
        DM.get_restraint this a1 a2 create m = (Ok None, m))
     ∧ (DM.find_restraint a1 a2 m = None → create = true →
        structure a1 ≠ DM._structure m ∨ structure a2 ≠ DM._structure m →
        ∃ msg, DM.get_restraint this a1 a2 create m
               = (Throw (logic_error msg), m))
     ∧ (DM.find_restraint a1 a2 m = None → create = true →
        D.bonded a1 a2 = true →
        ∃ msg, DM.get_restraint this a1 a2 create m
               = (Throw (logic_error msg), m))
     ∧ (DM.find_restraint a1 a2 m = None → create = true →
        structure a1 = DM._structure m → structure a2 = DM._structure m →
        D.bonded a1 a2 = false →
        ∃ r obj m',
          DM.get_restraint this a1 a2 create m = (Ok (Some r), m')
          ∧ DM.heap m !! r = None
          ∧ DM.heap m' !! r = Some obj
          ∧ DM.find_restraint a1 a2 m' = Some r
          ∧ D.atoms obj = (a1, a2)
          ∧ D.get_k obj = 0
          ∧ D.enabled obj = false)).
Proof.
  split.
  - intros atom m. unfold PM.get_restraint. split_and!.
    + by intros r ->.
    + by intros -> ->.
    + intros -> -> Hstruct.
      unfold PM._new_restraint, PM._new_restraint_at.
      by rewrite decide_True.
    + intros -> -> Hstruct Helem.
      unfold PM._new_restraint, PM._new_restraint_at.
      rewrite decide_False by (intros Hne; by apply Hne).
      by rewrite decide_True.
    + intros -> -> Hstruct Helem.
      destruct (new_restraint_ok this atom m Hstruct Helem)
        as (r & obj & m' & Hnew & Hrest).
      exists r, obj, m'. by rewrite Hnew.
  - intros a1 a2 m. unfold DM.get_restraint. split_and!.
    + by intros r ->.
    + by intros -> ->.
    + intros -> -> Hstruct. rewrite decide_True by done. eauto.
    + intros -> -> Hbonded. case_decide; [eauto|].
      unfold D.construct. rewrite Hbonded. eauto.
    + intros Hfind -> Hs1 Hs2 Hbonded. rewrite Hfind.
      rewrite decide_False by (intros [Hne|Hne]; by apply Hne).
      destruct (construct_ok a1 a2 this Hbonded) as (obj & -> & Hobj).
      eexists _, obj, _. split; [reflexivity|]. simpl.
      split_and!; try apply Hobj.
      * apply fresh_unused.
      * apply lookup_insert_eq.
      * unfold DM.find_restraint. simpl. by rewrite lookup_insert_eq.
Qed.

(** The cases of C3 on the sample host. Position case: atom 1 with and
    without a restraint, atom 4 (of another structure), atom 3 (a
    hydrogen). Distance case: the atoms 1 and 3 with and without a
    restraint, the atoms 1 and 4 (another structure), the atoms 1 and 2
    (bonded). *)
Lemma get_restraint_spec_witness :
  (@PM.get_restraint Sample.host 30 1 false Sample.position_mgr_1
     = (Ok (Some 40%positive), Sample.position_mgr_1)
   ∧ @PM.get_restraint Sample.host 30 1 false Sample.position_mgr
     = (Ok None, Sample.position_mgr)
   ∧ @PM.get_restraint Sample.host 30 4 true Sample.position_mgr
     = (Throw (logic_error PM.error_different_mol), Sample.position_mgr)
   ∧ @PM.get_restraint Sample.host 30 3 true Sample.position_mgr
     = (Throw (logic_error PM.error_hydrogen), Sample.position_mgr)
   ∧ ∃ r obj m',
       @PM.get_restraint Sample.host 30 1 true Sample.position_mgr
         = (Ok (Some r), m')
       ∧ PM.heap Sample.position_mgr !! r = None
       ∧ PM.heap m' !! r = Some obj
       ∧ PM._atom_to_restraint m' !! 1%positive = Some r
       ∧ P.atom obj = 1%positive
       ∧ P.get_k obj = 0
       ∧ P.enabled obj = false
       ∧ P.get_target obj = @coord Sample.host 1)
  ∧ (@DM.get_restraint Sample.host Sample.header 31 1 3 false
       Sample.distance_mgr_13
     = (Ok (Some 41%positive), Sample.distance_mgr_13)
   ∧ @DM.get_restraint Sample.host Sample.header 31 1 3 false
       Sample.distance_mgr
     = (Ok None, Sample.distance_mgr)
   ∧ (∃ msg, @DM.get_restraint Sample.host Sample.header 31 1 4 true
               Sample.distance_mgr
             = (Throw (logic_error msg), Sample.distance_mgr))
   ∧ (∃ msg, @DM.get_restraint Sample.host Sample.header 31 1 2 true
               Sample.distance_mgr
             = (Throw (logic_error msg), Sample.distance_mgr))
   ∧ ∃ r obj m',
       @DM.get_restraint Sample.host Sample.header 31 1 3 true
         Sample.distance_mgr
         = (Ok (Some r), m')
       ∧ DM.heap Sample.distance_mgr !! r = None
       ∧ DM.heap m' !! r = Some obj
       ∧ DM.find_restraint 1 3 m' = Some r
       ∧ D.atoms obj = (1%positive, 3%positive)
       ∧ D.get_k obj = 0
       ∧ D.enabled obj = false).
Proof.
  split.
  - split_and!.
    + apply (proj1 (proj1 (get_restraint_spec Sample.host Sample.header
                             30%positive false)
                      1%positive Sample.position_mgr_1)).
      vm_compute. reflexivity.
    + apply (proj1 (proj2 (proj1 (get_restraint_spec Sample.host Sample.header
                                    30%positive false)
                             1%positive Sample.position_mgr)));
        [vm_compute; reflexivity|reflexivity].
    + apply (proj1 (proj2 (proj2 (proj1
               (get_restraint_spec Sample.host Sample.header 30%positive true)
               4%positive Sample.position_mgr))));
        [vm_compute; reflexivity|reflexivity|vm_compute; discriminate].
    + apply (proj1 (proj2 (proj2 (proj2 (proj1
               (get_restraint_spec Sample.host Sample.header 30%positive true)
               3%positive Sample.position_mgr)))));
        [vm_compute; reflexivity|reflexivity|vm_compute; reflexivity
        |vm_compute; reflexivity].
    + apply (proj2 (proj2 (proj2 (proj2 (proj1
               (get_restraint_spec Sample.host Sample.header 30%positive true)
               1%positive Sample.position_mgr)))));
        [vm_compute; reflexivity|reflexivity|vm_compute; reflexivity
        |vm_compute; discriminate].
  - split_and!.
    + apply (proj1 (proj2 (get_restraint_spec Sample.host Sample.header
                             31%positive false)
                      1%positive 3%positive Sample.distance_mgr_13)).
      vm_compute. reflexivity.
    + apply (proj1 (proj2 (proj2 (get_restraint_spec Sample.host Sample.header
                                    31%positive false)
                             1%positive 3%positive Sample.distance_mgr)));
        [vm_compute; reflexivity|reflexivity].
    + apply (proj1 (proj2 (proj2 (proj2
               (get_restraint_spec Sample.host Sample.header 31%positive true)
               1%positive 4%positive Sample.distance_mgr))));
        [vm_compute; reflexivity|reflexivity|right; vm_compute; discriminate].
    + apply (proj1 (proj2 (proj2 (proj2 (proj2
               (get_restraint_spec Sample.host Sample.header 31%positive true)
               1%positive 2%positive Sample.distance_mgr)))));
        [vm_compute; reflexivity|reflexivity|vm_compute; reflexivity].
    + apply (proj2 (proj2 (proj2 (proj2 (proj2
               (get_restraint_spec Sample.host Sample.header 31%positive true)
               1%positive 3%positive Sample.distance_mgr)))));
        [vm_compute; reflexivity|reflexivity|vm_compute; reflexivity
        |vm_compute; reflexivity|vm_compute; reflexivity].
Defined.

End Restraint_Mgr_Facts.

(** ** More on Dihedral_Mgr *)

Module Dihedral_Mgr_More.
Import Dihedral_Mgr Dihedral_Mgr_View.

(** The residue map after [add_dihedral] of a named dihedral that has a
    residue. *)
Lemma add_dihedral_residue_map h d obj r m m' :
  h !! d = Some obj → Dihedral._residue obj = Some r →
  Dihedral.name obj ≠ "" → add_dihedral h d m = Some m' →
  _residue_map m'
  = <[r := <[Dihedral.name obj := d]> (default ∅ (_residue_map m !! r))]>
      (_residue_map m).
Proof.
  intros Hobj Hres Hname. unfold add_dihedral. rewrite Hobj. simpl.
  unfold Dihedral.residue. rewrite Hres. rewrite decide_True by done.
  intros [= <-]. simpl. unfold subscript.
  destruct (_residue_map m !! r) as [dm|]; simpl; [done|].
  by rewrite insert_insert_eq.
Qed.

(** The residue map after [add_dihedral] of a dihedral without a name or
    without a residue. *)
Lemma add_dihedral_residue_map_same h d obj m m' :
  h !! d = Some obj →
  Dihedral._residue obj = None ∨ Dihedral.name obj = "" →
  add_dihedral h d m = Some m' → _residue_map m' = _residue_map m.
Proof.
  intros Hobj Hor. unfold add_dihedral. rewrite Hobj. simpl.
  unfold Dihedral.residue. intros [= <-]. simpl.
  destruct (Dihedral._residue obj) as [r|]; [|done].
  destruct Hor as [|Hname]; [done|]. by rewrite decide_False by (by intros ?).
Qed.

Lemma add_dihedral_def_instances rname dname anames externals m :
  _residue_map (add_dihedral_def rname dname anames externals m).2
    = _residue_map m
  ∧ _dihedrals (add_dihedral_def rname dname anames externals m).2
    = _dihedrals m.
Proof.
  unfold add_dihedral_def, subscript.
  destruct (_residue_name_map m !! rname) as [am|];
    [destruct (am !! dname)|rewrite lookup_empty]; done.
Qed.

(** [add_dihedral] of a named dihedral that has a residue makes it the
    entry of its residue and name, and leaves every other entry as it
    was. *)
Theorem add_dihedral_entry h d obj r m m' :
  h !! d = Some obj → Dihedral._residue obj = Some r →
  Dihedral.name obj ≠ "" → add_dihedral h d m = Some m' →
  entry m' r (Dihedral.name obj) = Some d
  ∧ ∀ r' name', (r', name') ≠ (r, Dihedral.name obj) →
      entry m' r' name' = entry m r' name'.
Proof.
  intros Hobj Hres Hname Hadd. unfold entry.
  rewrite (add_dihedral_residue_map _ _ _ _ _ _ Hobj Hres Hname Hadd).
  split.
  - rewrite lookup_insert_eq. simpl. apply lookup_insert_eq.
  - intros r' name' Hne. destruct (decide (r' = r)) as [->|Hr].
    + rewrite lookup_insert_eq. simpl.
      rewrite lookup_insert_ne by congruence.
      by destruct (_residue_map m !! r).
    + by rewrite lookup_insert_ne.
Qed.

Lemma add_dihedral_entry_witness :
  entry Sample.mgr_phi 20 (Dihedral.name Sample.phi) = Some 10%positive
  ∧ ∀ r' name', (r', name') ≠ (20%positive, Dihedral.name Sample.phi) →
      entry Sample.mgr_phi r' name' = entry empty r' name'.
Proof.
  apply (add_dihedral_entry Sample.dihedral_heap 10 Sample.phi 20 empty
           Sample.mgr_phi).
  - vm_compute. reflexivity.
  - reflexivity.
  - vm_compute. discriminate.
  - vm_compute. reflexivity.
Defined.

(** [add_dihedral] of a dihedral that has no residue, or no name, leaves
    the residue map as it was, and still stores the pointer in
    [_dihedrals]. *)
Theorem add_dihedral_unmapped h d obj m m' :
  h !! d = Some obj →
  Dihedral._residue obj = None ∨ Dihedral.name obj = "" →
  add_dihedral h d m = Some m' →
  _residue_map m' = _residue_map m
  ∧ num_mapped_dihedrals m' = num_mapped_dihedrals m
  ∧ d ∈ _dihedrals m'.
Proof.
  intros Hobj Hor Hadd.
  pose proof (add_dihedral_residue_map_same _ _ _ _ _ Hobj Hor Hadd) as Hrm.
  split; [done|]. split; [unfold num_mapped_dihedrals; by rewrite Hrm|].
  rewrite (Dihedral_Mgr_Facts.add_dihedral_dihedrals _ _ _ _ Hadd).
  case_decide; [done|]. apply elem_of_app. right. apply list_elem_of_here.
Qed.

Lemma add_dihedral_unmapped_witness :
  ∃ m', add_dihedral {[ 11%positive := Dihedral.set_name "" Sample.phi ]}
          11 Sample.mgr_phi = Some m'
        ∧ _residue_map m' = _residue_map Sample.mgr_phi
        ∧ num_mapped_dihedrals m' = num_mapped_dihedrals Sample.mgr_phi
        ∧ 11%positive ∈ _dihedrals m'.
Proof.
  eexists. split; [vm_compute; reflexivity|].
  apply (add_dihedral_unmapped
           {[ 11%positive := Dihedral.set_name "" Sample.phi ]} 11
           (Dihedral.set_name "" Sample.phi)).
  - vm_compute. reflexivity.
  - right. reflexivity.
  - vm_compute. reflexivity.
Defined.

(** The count of one more residue entry. *)
Lemma num_mapped_replace (rm : gmap ptr (gmap string ptr)) r dm :
  (map_fold (λ _ (dm : gmap string ptr) count,
               map_fold (λ _ _ count, S count) count dm) 0%nat (<[r := dm]> rm)
   + base.size (default ∅ (rm !! r)))%nat
  = (map_fold (λ _ (dm : gmap string ptr) count,
                 map_fold (λ _ _ count, S count) count dm) 0%nat rm
     + base.size dm)%nat.
Proof.
  destruct (rm !! r) as [dm0|] eqn:Hr; simpl.
  - rewrite <-(insert_delete_eq rm).
    rewrite <-(insert_delete_id rm r dm0 Hr) at 2.
    rewrite !Dihedral_Mgr_Facts.num_mapped_insert by apply lookup_delete_eq.
    lia.
  - rewrite Dihedral_Mgr_Facts.num_mapped_insert by done.
    rewrite map_size_empty. lia.
Qed.

(** [num_mapped_dihedrals] after [add_dihedral] of a named dihedral that
    has a residue: one more when its residue and name had no entry, the
    same when they had one (which the call overwrites). *)
Theorem add_dihedral_num_mapped h d obj r m m' :
  h !! d = Some obj → Dihedral._residue obj = Some r →
  Dihedral.name obj ≠ "" → add_dihedral h d m = Some m' →
  num_mapped_dihedrals m'
  = match entry m r (Dihedral.name obj) with
    | Some _ => num_mapped_dihedrals m
    | None => S (num_mapped_dihedrals m)
    end.
Proof.
  intros Hobj Hres Hname Hadd. unfold num_mapped_dihedrals, entry.
  rewrite (add_dihedral_residue_map _ _ _ _ _ _ Hobj Hres Hname Hadd).
  pose proof (num_mapped_replace (_residue_map m) r
                (<[Dihedral.name obj := d]> (default ∅ (_residue_map m !! r))))
    as Hcount.
  rewrite map_size_insert in Hcount.
  destruct (_residue_map m !! r) as [dm|]; simpl in *.
  - destruct (dm !! Dihedral.name obj); simpl in *; lia.
  - rewrite lookup_empty in Hcount. simpl in Hcount.
    rewrite map_size_empty in Hcount. lia.
Qed.

(** On the sample heap: the first [add_dihedral] of phi counts, the second
    one does not. *)
Lemma add_dihedral_num_mapped_witness :
  num_mapped_dihedrals Sample.mgr_phi = S (num_mapped_dihedrals empty)
  ∧ ∃ m', add_dihedral Sample.dihedral_heap 10 Sample.mgr_phi = Some m'
          ∧ num_mapped_dihedrals m' = num_mapped_dihedrals Sample.mgr_phi.
Proof.
  split.
  - apply (add_dihedral_num_mapped Sample.dihedral_heap 10 Sample.phi 20
             empty Sample.mgr_phi);
      [vm_compute; reflexivity|reflexivity|vm_compute; discriminate
      |vm_compute; reflexivity].
  - eexists. split; [vm_compute; reflexivity|].
    apply (add_dihedral_num_mapped Sample.dihedral_heap 10 Sample.phi 20
             Sample.mgr_phi);
      [vm_compute; reflexivity|reflexivity|vm_compute; discriminate
      |vm_compute; reflexivity].
Defined.

(** *** The destruction callback, continued *)

(** Two calls of [destructors_done] in a row amount to one call with the
    union of the two sets; in particular a second call with the same set
    changes nothing. *)
Theorem destructors_done_union (D1 D2 : gset ptr) m :
  destructors_done D2 (destructors_done D1 m) = destructors_done (D1 ∪ D2) m
  ∧ destructors_done D1 (destructors_done D1 m) = destructors_done D1 m.
Proof.
  assert (∀ E1 E2 : gset ptr,
            destructors_done E2 (destructors_done E1 m)
            = destructors_done (E1 ∪ E2) m) as Hunion.
  { intros E1 E2. destruct m as [rm nm am ma ds]. unfold destructors_done.
    simpl. f_equal.
    - apply map_eq. intros r.
      rewrite !map_lookup_filter, !lookup_fmap, map_lookup_filter, lookup_fmap.
      destruct (rm !! r) as [dm|]; simpl; [|done].
      destruct (decide (r ∈ E1)) as [Hr1|Hr1].
      + rewrite (option_guard_False (r ∉ E1)) by (simpl; tauto). simpl.
        by rewrite option_guard_False
          by (simpl; rewrite not_elem_of_union; tauto).
      + rewrite (option_guard_True (r ∉ E1)) by done. simpl.
        destruct (decide (r ∈ E2)) as [Hr2|Hr2].
        * rewrite option_guard_False by (simpl; tauto).
          by rewrite option_guard_False
            by (simpl; rewrite not_elem_of_union; tauto).
        * rewrite !option_guard_True
            by (simpl; rewrite ?not_elem_of_union; tauto).
          f_equal. rewrite map_filter_filter.
          apply map_filter_ext. intros name d _. simpl.
          rewrite not_elem_of_union. tauto.
    - rewrite list_filter_filter. apply list_filter_iff. intros d.
      rewrite not_elem_of_union. tauto. }
  split; [apply Hunion|].
  rewrite Hunion. f_equal. apply union_idemp_L.
Qed.

(** After [destructors_done] no pointer of the destroyed set is left in
    the manager: not as a residue key, not as a mapped dihedral, not in
    [_dihedrals]. *)
Theorem destructors_done_forgets (destroyed : gset ptr) m p :
  p ∈ destroyed →
  _residue_map (destructors_done destroyed m) !! p = None
  ∧ ¬ mapped (destructors_done destroyed m) p
  ∧ p ∉ _dihedrals (destructors_done destroyed m).
Proof.
  intros Hp. split_and!.
  - rewrite Dihedral_Mgr_Facts.destructors_done_lookup. by rewrite decide_True.
  - intros (r & dm & name & Hr & Hd).
    rewrite Dihedral_Mgr_Facts.destructors_done_lookup in Hr.
    case_decide; [done|].
    destruct (_residue_map m !! r) as [dm0|]; [|done].
    simpl in Hr. injection Hr as <-.
    apply map_lookup_filter_Some in Hd as [_ Hnd]. done.
  - simpl. intros [Hnp _]%list_elem_of_filter. done.
Qed.

Lemma destructors_done_forgets_witness :
  _residue_map (destructors_done {[ 10%positive ]} Sample.mgr_phi) !! 10%positive
    = None
  ∧ ¬ mapped (destructors_done {[ 10%positive ]} Sample.mgr_phi) 10
  ∧ 10%positive ∉ _dihedrals (destructors_done {[ 10%positive ]} Sample.mgr_phi).
Proof.
  apply (destructors_done_forgets {[ 10%positive ]} Sample.mgr_phi 10).
  apply elem_of_singleton. reflexivity.
Defined.

(** The residues that keep an entry after [destructors_done] are those
    that had one and are not destroyed, whether or not any of their
    dihedrals is left; [size()] counts them. *)
Theorem destructors_done_residues (destroyed : gset ptr) m :
  dom (_residue_map (destructors_done destroyed m))
    = dom (_residue_map m) ∖ destroyed
  ∧ size (destructors_done destroyed m)
    = base.size (dom (_residue_map m) ∖ destroyed).
Proof.
  assert (dom (_residue_map (destructors_done destroyed m))
          = dom (_residue_map m) ∖ destroyed) as Hdom.
  { apply set_eq. intros r.
    rewrite elem_of_difference, !elem_of_dom,
      Dihedral_Mgr_Facts.destructors_done_lookup.
    case_decide.
    - split; [by intros [? ?]|]. intros [_ ?]. done.
    - rewrite fmap_is_Some. tauto. }
  split; [done|]. unfold size. by rewrite <-Hdom, size_dom.
Qed.

(** *** The registry of definitions, continued *)

(** The first definition stored for a pair stays: a second
    [add_dihedral_def] for the pair throws and changes nothing. *)
Theorem add_dihedral_def_first_wins rname dname anames1 externals1
    anames2 externals2 m :
  get_dihedral_def rname dname m
    = Throw (out_of_range "Unrecognised dihedral def!") →
  add_dihedral_def rname dname anames2 externals2
    (add_dihedral_def rname dname anames1 externals1 m).2
  = (Throw (runtime_error "Dihedral definition already exists!"),
     (add_dihedral_def rname dname anames1 externals1 m).2)
  ∧ get_dihedral_def rname dname
      (add_dihedral_def rname dname anames2 externals2
         (add_dihedral_def rname dname anames1 externals1 m).2).2
    = Ok (anames1, externals1).
Proof.
  intros Habsent.
  assert (get_dihedral_def rname dname
            (add_dihedral_def rname dname anames1 externals1 m).2
          = Ok (anames1, externals1)) as Hfirst.
  { unfold add_dihedral_def, get_dihedral_def, subscript in *.
    destruct (_residue_name_map m !! rname) as [am|] eqn:Hr.
    - destruct (am !! dname) as [dd|] eqn:Hd; [done|].
      simpl. by rewrite !lookup_insert_eq.
    - rewrite lookup_empty. simpl. by rewrite !lookup_insert_eq. }
  apply Dihedral_Mgr_Facts.get_dihedral_def_Ok in Hfirst as Hreg.
  destruct Hreg as (am & Hr & Hd).
  assert (add_dihedral_def rname dname anames2 externals2
            (add_dihedral_def rname dname anames1 externals1 m).2
          = (Throw (runtime_error "Dihedral definition already exists!"),
             (add_dihedral_def rname dname anames1 externals1 m).2)) as Hsecond.
  { unfold add_dihedral_def at 1.
    rewrite (Dihedral_Mgr_Facts.subscript_present _ _ am) by done.
    rewrite Hd. by rewrite Dihedral_Mgr_Facts.with_residue_name_map_id. }
  by rewrite Hsecond.
Qed.

Lemma add_dihedral_def_first_wins_witness :
  add_dihedral_def "ALA" "phi" ["X"] [false]
    (add_dihedral_def "ALA" "phi" Sample.phi_def.1 Sample.phi_def.2 empty).2
  = (Throw (runtime_error "Dihedral definition already exists!"),
     (add_dihedral_def "ALA" "phi" Sample.phi_def.1 Sample.phi_def.2 empty).2)
  ∧ get_dihedral_def "ALA" "phi"
      (add_dihedral_def "ALA" "phi" ["X"] [false]
         (add_dihedral_def "ALA" "phi" Sample.phi_def.1 Sample.phi_def.2
            empty).2).2
    = Ok (Sample.phi_def.1, Sample.phi_def.2).
Proof.
  apply (add_dihedral_def_first_wins "ALA" "phi" Sample.phi_def.1
           Sample.phi_def.2 ["X"] [false] empty).
  reflexivity.
Defined.

(** *** Invariants *)

Lemma add_dihedral_mapped h d m m' x :
  add_dihedral h d m = Some m' → mapped m' x → x = d ∨ mapped m x.
Proof.
  intros Hadd (r' & dm' & name' & Hr' & Hd').
  destruct (h !! d) as [obj|] eqn:Hobj;
    [|by unfold add_dihedral in Hadd; rewrite Hobj in Hadd].
  destruct (Dihedral._residue obj) as [r|] eqn:Hres.
  - destruct (decide (Dihedral.name obj = "")) as [Hname|Hname].
    + right. exists r', dm', name'.
      by rewrite <-(add_dihedral_residue_map_same _ _ _ _ _ Hobj
                      (or_intror Hname) Hadd).
    + rewrite (add_dihedral_residue_map _ _ _ _ _ _ Hobj Hres Hname Hadd) in Hr'.
      destruct (decide (r' = r)) as [->|Hr].
      * rewrite lookup_insert_eq in Hr'. injection Hr' as <-.
        destruct (decide (name' = Dihedral.name obj)) as [->|Hn].
        -- rewrite lookup_insert_eq in Hd'. left. congruence.
        -- rewrite lookup_insert_ne in Hd' by done. right.
           destruct (_residue_map m !! r) as [dm|] eqn:Hrm; simpl in Hd'.
           ++ by exists r, dm, name'.
           ++ by rewrite lookup_empty in Hd'.
      * rewrite lookup_insert_ne in Hr' by done. right. by exists r', dm', name'.
  - right. exists r', dm', name'.
    by rewrite <-(add_dihedral_residue_map_same _ _ _ _ _ Hobj
                    (or_introl Hres) Hadd).
Qed.

Lemma add_dihedral_listed h d m m' :
  add_dihedral h d m = Some m' →
  d ∈ _dihedrals m' ∧ ∀ x, x ∈ _dihedrals m → x ∈ _dihedrals m'.
Proof.
  intros Hadd. rewrite (Dihedral_Mgr_Facts.add_dihedral_dihedrals _ _ _ _ Hadd).
  case_decide; [done|]. split.
  - apply elem_of_app. right. apply list_elem_of_here.
  - intros x Hx. apply elem_of_app. by left.
Qed.

(** Whatever calls built the manager, every dihedral that the residue map
    holds is also in [_dihedrals], and no entry of the residue map has the
    empty name. *)
Theorem reachable_mapped_listed m :
  reachable m →
  (∀ d, mapped m d → d ∈ _dihedrals m)
  ∧ (∀ r, entry m r "" = None).
Proof.
  induction 1 as [|h d m m' _ [IHl IHn] Hadd|rname dname anames externals m _
                  [IHl IHn]|destroyed m _ [IHl IHn]].
  - split.
    + intros d (r & dm & name & Hr & _). simpl in Hr.
      by rewrite lookup_empty in Hr.
    + intros r. unfold entry. simpl. by rewrite lookup_empty.
  - split.
    + intros x Hx. destruct (add_dihedral_listed _ _ _ _ Hadd) as [Hd Hold].
      destruct (add_dihedral_mapped _ _ _ _ _ Hadd Hx) as [->|Hm]; [done|].
      by apply Hold, IHl.
    + intros r.
      destruct (h !! d) as [obj|] eqn:Hobj;
        [|by unfold add_dihedral in Hadd; rewrite Hobj in Hadd].
      destruct (Dihedral._residue obj) as [r0|] eqn:Hres.
      * destruct (decide (Dihedral.name obj = "")) as [Hname|Hname].
        -- unfold entry.
           rewrite (add_dihedral_residue_map_same _ _ _ _ _ Hobj
                      (or_intror Hname) Hadd).
           apply IHn.
        -- unfold entry.
           rewrite (add_dihedral_residue_map _ _ _ _ _ _ Hobj Hres Hname Hadd).
           destruct (decide (r = r0)) as [->|Hr].
           ++ rewrite lookup_insert_eq. simpl.
              rewrite lookup_insert_ne by done.
              specialize (IHn r0). unfold entry in IHn.
              by destruct (_residue_map m !! r0).
           ++ rewrite lookup_insert_ne by done. apply IHn.
      * unfold entry.
        rewrite (add_dihedral_residue_map_same _ _ _ _ _ Hobj
                   (or_introl Hres) Hadd).
        apply IHn.
  - destruct (add_dihedral_def_instances rname dname anames externals m)
      as [Hrm Hds].
    split.
    + intros d (r & dm & name & Hr & Hd). rewrite Hds. apply IHl.
      exists r, dm, name. by rewrite <-Hrm.
    + intros r. unfold entry. rewrite Hrm. apply IHn.
  - split.
    + intros d (r & dm & name & Hr & Hd).
      rewrite Dihedral_Mgr_Facts.destructors_done_lookup in Hr.
      case_decide; [done|].
      destruct (_residue_map m !! r) as [dm0|] eqn:Hrm; [|done].
      simpl in Hr. injection Hr as <-.
      apply map_lookup_filter_Some in Hd as [Hd Hnd]. simpl.
      apply list_elem_of_filter. split; [done|].
      apply IHl. by exists r, dm0, name.
    + intros r. unfold entry.
      rewrite Dihedral_Mgr_Facts.destructors_done_lookup.
      case_decide; [done|]. specialize (IHn r). unfold entry in IHn.
      destruct (_residue_map m !! r) as [dm0|]; [|done]. simpl in *.
      apply map_lookup_filter_None. by left.
Qed.

Lemma reachable_mapped_listed_witness :
  (∀ d, mapped Sample.mgr_phi d → d ∈ _dihedrals Sample.mgr_phi)
  ∧ (∀ r, entry Sample.mgr_phi r "" = None).
Proof.
  apply (reachable_mapped_listed Sample.mgr_phi).
  apply (reach_add_dihedral Sample.dihedral_heap 10 empty);
    [apply reach_empty|vm_compute; reflexivity].
Defined.

(** *** Sample runs *)

(** A destroyed set that holds atoms only leaves the sample manager as it
    is. *)
Lemma destructors_done_unrelated_witness :
  destructors_done {[ 1%positive; 2%positive ]} Sample.mgr_phi = Sample.mgr_phi.
Proof.
  apply (Dihedral_Mgr_Facts.destructors_done_unrelated
           {[ 1%positive; 2%positive ]} Sample.mgr_phi).
  - intros r dm Hr. simpl in Hr.
    apply lookup_singleton_Some in Hr as [<- <-]. split.
    + intros [Hin|Hin]%elem_of_union; apply elem_of_singleton in Hin;
        discriminate.
    + intros name d Hd. apply lookup_singleton_Some in Hd as [_ <-].
      intros [Hin|Hin]%elem_of_union; apply elem_of_singleton in Hin;
        discriminate.
  - intros d Hd. simpl in Hd. apply list_elem_of_singleton in Hd as ->.
    intros [Hin|Hin]%elem_of_union; apply elem_of_singleton in Hin;
      discriminate.
Defined.

(** Storing psi for ALA leaves phi for ALA as it was. *)
Lemma add_dihedral_def_other_witness :
  get_dihedral_def "ALA" "phi"
    (add_dihedral_def "ALA" "psi" ["N"; "CA"; "C"; "N"]
       [false; false; false; true] Sample.mgr_ala).2
  = get_dihedral_def "ALA" "phi" Sample.mgr_ala.
Proof.
  apply (Dihedral_Mgr_Facts.add_dihedral_def_other "ALA" "psi"
           ["N"; "CA"; "C"; "N"] [false; false; false; true] Sample.mgr_ala
           "ALA" "phi").
  discriminate.
Defined.

End Dihedral_Mgr_More.

(** ** More on Position_Restraint_Mgr_Base *)

Module Position_Restraint_Mgr_More.
Import Atomstruct Position_Restraint_Mgr_Base.
Local Open Scope R_scope.

(** *** Deleting restraints *)

(** What [_delete_restraints] leaves, when every pointer of the set holds
    an object: the objects outside the set, and the entries of the atoms
    that no restraint of the set is on. *)
Lemma _delete_restraints_spec (m : PM.t) (to_delete : gset ptr) :
  (∀ r, r ∈ to_delete → is_Some (PM.heap m !! r)) →
  ∃ m', _delete_restraints to_delete m = Some m'
    ∧ PM._atomic_model m' = PM._atomic_model m
    ∧ PM._change_tracker m' = PM._change_tracker m
    ∧ (∀ p, PM.heap m' !! p
            = if decide (p ∈ to_delete) then None else PM.heap m !! p)
    ∧ (∀ a r obj, r ∈ to_delete → PM.heap m !! r = Some obj →
         P.atom obj = a → PM._atom_to_restraint m' !! a = None)
    ∧ (∀ a, (∀ r obj, r ∈ to_delete → PM.heap m !! r = Some obj →
               P.atom obj ≠ a) →
         PM._atom_to_restraint m' !! a = PM._atom_to_restraint m !! a).
Proof.
  pose (Q := λ (acc : option PM.t) (X : gset ptr),
       (∀ r, r ∈ X → is_Some (PM.heap m !! r)) →
       ∃ m', acc = Some m'
         ∧ PM._atomic_model m' = PM._atomic_model m
         ∧ PM._change_tracker m' = PM._change_tracker m
         ∧ (∀ p, PM.heap m' !! p
                 = if decide (p ∈ X) then None else PM.heap m !! p)
         ∧ (∀ a r obj, r ∈ X → PM.heap m !! r = Some obj →
              P.atom obj = a → PM._atom_to_restraint m' !! a = None)
         ∧ (∀ a, (∀ r obj, r ∈ X → PM.heap m !! r = Some obj →
                    P.atom obj ≠ a) →
              PM._atom_to_restraint m' !! a = PM._atom_to_restraint m !! a)).
  change (Q (_delete_restraints to_delete m) to_delete).
  unfold _delete_restraints. apply (set_fold_ind_L Q); unfold Q.
  - intros _. exists m. split_and!; done.
  - intros x X acc Hx IH Hlive.
    destruct IH as (mX & -> & Hmodel & Hct & Hheap & Herased & Hkept).
    { intros r Hr. apply Hlive, elem_of_union. by right. }
    destruct (Hlive x) as [obj Hobj]; [apply elem_of_union; left;
                                        by apply elem_of_singleton|].
    assert (PM.heap mX !! x = Some obj) as HobjX.
    { rewrite Hheap. by rewrite decide_False. }
    simpl. unfold delete_one. rewrite HobjX. simpl.
    eexists. split; [reflexivity|]. simpl. split_and!; try done.
    + intros p. destruct (decide (p = x)) as [->|Hpx].
      * rewrite lookup_delete_eq.
        by rewrite decide_True by (apply elem_of_union; left;
                                   by apply elem_of_singleton).
      * rewrite lookup_delete_ne by done. rewrite Hheap.
        destruct (decide (p ∈ X)) as [HpX|HpX].
        -- by rewrite decide_True by (apply elem_of_union; by right).
        -- rewrite decide_False; [done|].
           intros [Hp|Hp]%elem_of_union; [|done].
           by apply elem_of_singleton in Hp.
    + intros a r obj' [Hr|Hr]%elem_of_union Hobj' Hatom.
      * apply elem_of_singleton in Hr as ->.
        rewrite Hobj in Hobj'. injection Hobj' as <-.
        rewrite Hatom. apply lookup_delete_eq.
      * destruct (decide (P.atom obj = a)) as [->|Hne];
          [apply lookup_delete_eq|].
        rewrite lookup_delete_ne by done. by apply (Herased a r obj').
    + intros a Hnone.
      rewrite lookup_delete_ne.
      * apply Hkept. intros r obj' Hr. apply Hnone, elem_of_union. by right.
      * apply (Hnone x obj); [|done].
        apply elem_of_union. left. by apply elem_of_singleton.
Qed.

(** [_delete_restraints] is defined only when every pointer of the set
    holds an object. *)
Lemma _delete_restraints_defined (m : PM.t) (to_delete : gset ptr) m' :
  _delete_restraints to_delete m = Some m' →
  ∀ r, r ∈ to_delete → is_Some (PM.heap m !! r).
Proof.
  pose (Q := λ (acc : option PM.t) (X : gset ptr),
          ∀ m', acc = Some m' →
            (∀ r, r ∈ X → is_Some (PM.heap m !! r))
            ∧ (∀ p, PM.heap m' !! p
                    = if decide (p ∈ X) then None else PM.heap m !! p)).
  cut (Q (_delete_restraints to_delete m) to_delete).
  { intros HQ Hdel. by apply (HQ m'). }
  unfold _delete_restraints. apply (set_fold_ind_L Q); unfold Q.
  - intros m0 [= <-]. split; [by intros r ?%not_elem_of_empty|done].
  - intros x X acc Hx IH m0 Hm0.
    destruct acc as [mX|]; [|done]. simpl in Hm0.
    destruct (IH mX eq_refl) as [Hlive Hheap].
    unfold delete_one in Hm0.
    destruct (PM.heap mX !! x) as [obj|] eqn:Hobj; [|done].
    simpl in Hm0. injection Hm0 as <-.
    rewrite Hheap, decide_False in Hobj by done. split.
    + intros r [->%elem_of_singleton|Hr]%elem_of_union; [eauto|by apply Hlive].
    + intros p. simpl. destruct (decide (p = x)) as [->|Hpx].
      * rewrite lookup_delete_eq.
        by rewrite decide_True by (apply elem_of_union; left;
                                   by apply elem_of_singleton).
      * rewrite lookup_delete_ne by done. rewrite Hheap.
        destruct (decide (p ∈ X)) as [HpX|HpX].
        -- by rewrite decide_True by (apply elem_of_union; by right).
        -- rewrite decide_False; [done|].
           intros [Hp|Hp]%elem_of_union; [|done].
           by apply elem_of_singleton in Hp.
Qed.

Lemma consistent_injective m a1 a2 r :
  consistent m →
  PM._atom_to_restraint m !! a1 = Some r →
  PM._atom_to_restraint m !! a2 = Some r → a1 = a2.
Proof.
  intros [Hmap _] H1 H2.
  destruct (Hmap a1 r H1) as (obj1 & Hobj1 & <-).
  destruct (Hmap a2 r H2) as (obj2 & Hobj2 & <-).
  congruence.
Qed.

Lemma delete_live (m : PM.t) (to_delete : gset ptr) :
  consistent m →
  (∀ r, r ∈ to_delete → is_Some (PM.heap m !! r)) →
  ∃ m', delete_restraints to_delete m = Some m'
    ∧ PM._atom_to_restraint m'
      = filter (λ kv : ptr * ptr, kv.2 ∉ to_delete) (PM._atom_to_restraint m)
    ∧ PM.heap m'
      = filter (λ kv : ptr * P.t, kv.1 ∉ to_delete) (PM.heap m)
    ∧ consistent m'.
Proof.
  intros Hcons Hlive.
  destruct (_delete_restraints_spec m to_delete Hlive)
    as (m' & Hdel & _ & _ & Hheap & Herased & Hkept).
  assert (PM._atom_to_restraint m'
          = filter (λ kv : ptr * ptr, kv.2 ∉ to_delete) (PM._atom_to_restraint m))
    as Hmap'.
  { apply map_eq. intros a. rewrite map_lookup_filter.
    destruct (PM._atom_to_restraint m !! a) as [r|] eqn:Ha; simpl.
    - destruct (proj1 Hcons a r Ha) as (obj & Hobj & Hatom).
      destruct (decide (r ∈ to_delete)) as [Hr|Hr].
      + rewrite option_guard_False by (simpl; tauto).
        by apply (Herased a r obj).
      + rewrite option_guard_True by done. rewrite Hkept; [done|].
        intros r' obj' Hr' Hobj' Hatom'.
        pose proof (proj2 Hcons r' obj' Hobj') as Hback.
        rewrite Hatom', Ha in Hback. congruence.
    - rewrite Hkept; [done|]. intros r' obj' Hr' Hobj' Hatom'.
      pose proof (proj2 Hcons r' obj' Hobj') as Hback.
      rewrite Hatom', Ha in Hback. done. }
  assert (PM.heap m'
          = filter (λ kv : ptr * P.t, kv.1 ∉ to_delete) (PM.heap m)) as Hheap'.
  { apply map_eq. intros p. rewrite Hheap, map_lookup_filter.
    destruct (PM.heap m !! p) as [obj|]; simpl; [|by case_decide].
    case_decide.
    - by rewrite option_guard_False by (simpl; tauto).
    - by rewrite option_guard_True. }
  exists m'. split_and!; try done.
  split.
  - intros a r. rewrite Hmap', Hheap'.
    intros [Ha Hr]%map_lookup_filter_Some.
    destruct (proj1 Hcons a r Ha) as (obj & Hobj & Hatom).
    exists obj. split; [|done]. by apply map_lookup_filter_Some.
  - intros r obj. rewrite Hmap', Hheap'.
    intros [Hobj Hr]%map_lookup_filter_Some.
    apply map_lookup_filter_Some. split; [|done]. by apply (proj2 Hcons).
Qed.

(** [delete_restraints] of live restraints, on a manager whose index and
    objects agree: the call is defined, the restraints of the set are gone
    from the objects and from the index, everything else is kept, and
    index and objects still agree. *)
Theorem delete_restraints_spec (m : PM.t) (to_delete : gset ptr) :
  consistent m →
  (∀ r, r ∈ to_delete → is_Some (PM.heap m !! r)) →
  ∃ m', delete_restraints to_delete m = Some m'
    ∧ PM._atom_to_restraint m'
      = filter (λ kv : ptr * ptr, kv.2 ∉ to_delete) (PM._atom_to_restraint m)
    ∧ PM.heap m'
      = filter (λ kv : ptr * P.t, kv.1 ∉ to_delete) (PM.heap m)
    ∧ consistent m'.
Proof. apply delete_live. Qed.

Lemma sample_consistent : consistent Sample.position_mgr_1.
Proof.
  split.
  - intros a r Ha. simpl in Ha. apply lookup_singleton_Some in Ha as [<- <-].
    exists Sample.position_restraint. split; [|reflexivity].
    simpl. apply lookup_singleton_eq.
  - intros r obj Hr. simpl in Hr. apply lookup_singleton_Some in Hr as [<- <-].
    simpl. apply lookup_singleton_eq.
Qed.

Lemma delete_restraints_spec_witness :
  ∃ m', delete_restraints {[ 40%positive ]} Sample.position_mgr_1 = Some m'
    ∧ PM._atom_to_restraint m'
      = filter (λ kv : ptr * ptr, kv.2 ∉ ({[ 40%positive ]} : gset ptr))
          (PM._atom_to_restraint Sample.position_mgr_1)
    ∧ PM.heap m'
      = filter (λ kv : ptr * P.t, kv.1 ∉ ({[ 40%positive ]} : gset ptr))
          (PM.heap Sample.position_mgr_1)
    ∧ consistent m'.
Proof.
  apply (delete_restraints_spec Sample.position_mgr_1 {[ 40%positive ]}
           sample_consistent).
  intros r ->%elem_of_singleton. simpl. rewrite lookup_singleton_eq. eauto.
Defined.

(** *** The destruction callback *)

(** The set that the first loop of [destructors_done] collects. *)
Lemma restraints_of_destroyed_spec (destroyed : gset ptr) (m : PM.t) :
  (∀ a r, PM._atom_to_restraint m !! a = Some r → is_Some (PM.heap m !! r)) →
  ∃ to_delete, restraints_of_destroyed destroyed m = Some to_delete
    ∧ ∀ r, r ∈ to_delete ↔
           ∃ a obj, PM._atom_to_restraint m !! a = Some r
                    ∧ PM.heap m !! r = Some obj ∧ P.atom obj ∈ destroyed.
Proof.
  pose (Q := λ (acc : option (gset ptr)) (mp : gmap ptr ptr),
          (∀ a r, mp !! a = Some r → is_Some (PM.heap m !! r)) →
          ∃ to_delete, acc = Some to_delete
            ∧ ∀ r, r ∈ to_delete ↔
                   ∃ a obj, mp !! a = Some r
                            ∧ PM.heap m !! r = Some obj
                            ∧ P.atom obj ∈ destroyed).
  change (Q (restraints_of_destroyed destroyed m) (PM._atom_to_restraint m)).
  unfold restraints_of_destroyed. apply (map_fold_weak_ind Q); unfold Q.
  - intros _. exists ∅. split; [done|]. intros r. split.
    + by intros ?%not_elem_of_empty.
    + intros (a & obj & Ha & _). by rewrite lookup_empty in Ha.
  - intros a r mp acc Ha IH Hlive.
    destruct IH as (S & -> & HS).
    { intros a' r' Ha'. apply (Hlive a'). rewrite lookup_insert_ne; [done|].
      intros <-. by rewrite Ha in Ha'. }
    destruct (Hlive a r) as [obj Hobj]; [apply lookup_insert_eq|].
    simpl. rewrite Hobj. simpl. eexists. split; [reflexivity|].
    intros r'. case_decide as Hd.
    + rewrite elem_of_union, elem_of_singleton, HS. split.
      * intros [->|(a' & obj' & Ha' & Hrest)].
        -- exists a, obj. by rewrite lookup_insert_eq.
        -- exists a', obj'. rewrite lookup_insert_ne; [done|].
           intros <-. by rewrite Ha in Ha'.
      * intros (a' & obj' & Ha' & Hrest).
        destruct (decide (a = a')) as [<-|Hne].
        -- rewrite lookup_insert_eq in Ha'. left. congruence.
        -- rewrite lookup_insert_ne in Ha' by done. right. eauto.
    + rewrite HS. split.
      * intros (a' & obj' & Ha' & Hrest).
        exists a', obj'. rewrite lookup_insert_ne; [done|].
        intros <-. by rewrite Ha in Ha'.
      * intros (a' & obj' & Ha' & Hobj' & Hin).
        destruct (decide (a = a')) as [<-|Hne].
        -- rewrite lookup_insert_eq in Ha'. injection Ha' as <-.
           rewrite Hobj in Hobj'. injection Hobj' as <-. done.
        -- rewrite lookup_insert_ne in Ha' by done. eauto.
Qed.

Lemma purge_live (destroyed : gset ptr) (m : PM.t) :
  consistent m →
  ∃ m', destructors_done destroyed m = Some m'
    ∧ PM._atom_to_restraint m'
      = filter (λ kv : ptr * ptr, kv.1 ∉ destroyed) (PM._atom_to_restraint m)
    ∧ PM.heap m'
      = filter (λ kv : ptr * P.t, P.atom kv.2 ∉ destroyed) (PM.heap m)
    ∧ consistent m'
    ∧ num_restraints m'
      = size (dom (PM._atom_to_restraint m) ∖ destroyed).
Proof.
  intros Hcons.
  destruct (restraints_of_destroyed_spec destroyed m)
    as (to_delete & Hcollect & Hin).
  { intros a r Ha. destruct (proj1 Hcons a r Ha) as (obj & Hobj & _). eauto. }
  destruct (delete_live m to_delete Hcons)
    as (m' & Hdel & Hmap & Hheap & Hcons').
  { intros r (a & obj & _ & Hobj & _)%Hin. eauto. }
  assert (PM._atom_to_restraint m'
          = filter (λ kv : ptr * ptr, kv.1 ∉ destroyed) (PM._atom_to_restraint m))
    as Hmap'.
  { rewrite Hmap. apply map_filter_ext. intros a r Ha. simpl.
    destruct (proj1 Hcons a r Ha) as (obj & Hobj & Hatom).
    rewrite Hin. split.
    - intros Hnot Ha_in. apply Hnot. exists a, obj. by rewrite Hatom.
    - intros Hnot (a' & obj' & Ha' & Hobj' & Hd). apply Hnot.
      rewrite Hobj in Hobj'. injection Hobj' as <-. by rewrite <-Hatom. }
  exists m'. split_and!; try done.
  - unfold destructors_done. rewrite Hcollect. simpl. exact Hdel.
  - rewrite Hheap. apply map_filter_ext. intros r obj Hobj. simpl.
    pose proof (proj2 Hcons r obj Hobj) as Hback.
    rewrite Hin. split.
    + intros Hnot Ha_in. apply Hnot. by exists (P.atom obj), obj.
    + intros Hnot (a' & obj' & Ha' & Hobj' & Hd). apply Hnot.
      rewrite Hobj in Hobj'. by injection Hobj' as <-.
  - unfold num_restraints. rewrite Hmap', <-size_dom. f_equal.
    apply dom_filter_L. intros a. rewrite elem_of_difference, elem_of_dom.
    unfold is_Some. simpl. split.
    + intros [[r Hr] Hna]. eauto.
    + intros (r & Hr & Hna). eauto.
Qed.

(** [destructors_done], on a manager whose index and objects agree: the
    call is defined; the restraints on destroyed atoms, and only those,
    are gone from the index and from the objects; index and objects still
    agree; [num_restraints()] is the number of restrained atoms that are
    not destroyed. *)
Theorem destructors_done_purges (destroyed : gset ptr) (m : PM.t) :
  consistent m →
  ∃ m', destructors_done destroyed m = Some m'
    ∧ PM._atom_to_restraint m'
      = filter (λ kv : ptr * ptr, kv.1 ∉ destroyed) (PM._atom_to_restraint m)
    ∧ PM.heap m'
      = filter (λ kv : ptr * P.t, P.atom kv.2 ∉ destroyed) (PM.heap m)
    ∧ consistent m'
    ∧ num_restraints m'
      = size (dom (PM._atom_to_restraint m) ∖ destroyed).
Proof. apply purge_live. Qed.

Lemma destructors_done_purges_witness :
  ∃ m', destructors_done {[ 1%positive ]} Sample.position_mgr_1 = Some m'
    ∧ PM._atom_to_restraint m'
      = filter (λ kv : ptr * ptr, kv.1 ∉ ({[ 1%positive ]} : gset ptr))
          (PM._atom_to_restraint Sample.position_mgr_1)
    ∧ PM.heap m'
      = filter (λ kv : ptr * P.t, P.atom kv.2 ∉ ({[ 1%positive ]} : gset ptr))
          (PM.heap Sample.position_mgr_1)
    ∧ consistent m'
    ∧ num_restraints m'
      = size (dom (PM._atom_to_restraint Sample.position_mgr_1)
                ∖ {[ 1%positive ]}).
Proof.
  apply (destructors_done_purges {[ 1%positive ]} Sample.position_mgr_1
           sample_consistent).
Defined.

(** *** The invariant *)

Lemma get_restraint_consistent `{Host} this atom create m :
  consistent m → consistent (PM.get_restraint this atom create m).2.
Proof.
  intros Hcons. unfold PM.get_restraint.
  destruct (PM._atom_to_restraint m !! atom) as [r|] eqn:Hatom; [done|].
  destruct create; [|done].
  unfold PM._new_restraint, PM._new_restraint_at.
  case_decide; [done|]. case_decide; [done|].
  unfold P.construct. destruct (coord atom) as [[x y] z]. simpl.
  pose proof (Restraint_Mgr_Facts.fresh_unused (PM.heap m)) as Hfresh.
  set (r := fresh (dom (PM.heap m))) in *.
  split; simpl.
  - intros a r' Ha. destruct (decide (a = atom)) as [->|Hne].
    + rewrite lookup_insert_eq in Ha. injection Ha as <-.
      eexists. split; [apply lookup_insert_eq|done].
    + rewrite lookup_insert_ne in Ha by done.
      destruct (proj1 Hcons a r' Ha) as (obj & Hobj & Hat).
      exists obj. split; [|done]. rewrite lookup_insert_ne; [done|].
      intros <-. by rewrite Hfresh in Hobj.
  - intros r' obj Hobj. destruct (decide (r' = r)) as [->|Hne].
    + rewrite lookup_insert_eq in Hobj. injection Hobj as <-. simpl.
      apply lookup_insert_eq.
    + rewrite lookup_insert_ne in Hobj by done.
      pose proof (proj2 Hcons r' obj Hobj) as Hback.
      rewrite lookup_insert_ne; [done|]. intros Heq.
      by rewrite <-Heq, Hatom in Hback.
Qed.

Lemma call_consistent r f m m' :
  (∀ obj ct, P.atom (f obj ct).1 = P.atom obj) →
  consistent m → call r f m = Some m' → consistent m'.
Proof.
  intros Hatom Hcons. unfold call.
  destruct (PM.heap m !! r) as [obj|] eqn:Hobj; [|done]. simpl.
  specialize (Hatom obj (PM._change_tracker m)).
  destruct (f obj (PM._change_tracker m)) as [obj' ct]. simpl in Hatom.
  intros [= <-]. split; simpl.
  - intros a r' Ha. destruct (proj1 Hcons a r' Ha) as (obj0 & Hobj0 & Hat).
    destruct (decide (r' = r)) as [->|Hne].
    + exists obj'. split; [apply lookup_insert_eq|]. congruence.
    + exists obj0. by rewrite lookup_insert_ne.
  - intros r' obj0 Hobj0. destruct (decide (r' = r)) as [->|Hne].
    + rewrite lookup_insert_eq in Hobj0. injection Hobj0 as <-.
      rewrite Hatom. by apply (proj2 Hcons).
    + rewrite lookup_insert_ne in Hobj0 by done. by apply (proj2 Hcons).
Qed.

(** Whatever calls a manager has served, its index and its objects agree:
    the entry of an atom holds a live restraint on that atom, and every
    live restraint is the entry of its atom; so no two atoms share a
    restraint. *)
Theorem reachable_consistent `{Host} this m :
  reachable this m →
  consistent m
  ∧ ∀ a1 a2 r, PM._atom_to_restraint m !! a1 = Some r →
               PM._atom_to_restraint m !! a2 = Some r → a1 = a2.
Proof.
  intros Hreach.
  assert (consistent m) as Hcons.
  { induction Hreach as [model ct|atom create m _ IH|S m m' _ IH Hdel
                         |D m m' _ IH Hdone|r x y z m m' _ IH Hcall
                         |r k m m' _ IH Hcall|r flag m m' _ IH Hcall].
    - split; intros ? ? Hl; simpl in Hl; by rewrite lookup_empty in Hl.
    - by apply get_restraint_consistent.
    - pose proof (_delete_restraints_defined m S m' Hdel) as Hlive.
      destruct (delete_live m S IH Hlive) as (m'' & Hdel' & _ & _ & Hc).
      rewrite Hdel in Hdel'. by injection Hdel' as <-.
    - destruct (purge_live D m IH) as (m'' & Hdone' & _ & _ & Hc & _).
      rewrite Hdone in Hdone'. by injection Hdone' as <-.
    - refine (call_consistent r (P.set_target r x y z) m m' _ IH Hcall).
      intros obj ct. reflexivity.
    - refine (call_consistent r (P.set_k r k) m m' _ IH Hcall).
      intros obj ct. reflexivity.
    - refine (call_consistent r (P.set_enabled r flag) m m' _ IH Hcall).
      intros obj ct. unfold P.set_enabled. by case_decide. }
  split; [done|]. intros a1 a2 r. by apply consistent_injective.
Qed.

Lemma reachable_consistent_witness :
  consistent (@PM.get_restraint Sample.host 30 1 true Sample.position_mgr).2
  ∧ ∀ a1 a2 r,
      PM._atom_to_restraint
        (@PM.get_restraint Sample.host 30 1 true Sample.position_mgr).2 !! a1
        = Some r →
      PM._atom_to_restraint
        (@PM.get_restraint Sample.host 30 1 true Sample.position_mgr).2 !! a2
        = Some r →
      a1 = a2.
Proof.
  apply (@reachable_consistent Sample.host 30).
  apply (@reach_get_restraint Sample.host 30 1 true Sample.position_mgr).
  apply (@reach_new Sample.host 30 100 []).
Defined.

(** *** Creating, finding again, deleting *)

(** After [get_restraint(atom, true)] has made a restraint, every further
    [get_restraint] for the atom returns that restraint and changes
    nothing; the manager holds one restraint more, and the entries of the
    other atoms are as before. *)
Theorem get_restraint_again `{Host} this atom m :
  PM._atom_to_restraint m !! atom = None →
  structure atom = PM._atomic_model m → element_number atom ≠ 1%nat →
  ∃ r m1,
    PM.get_restraint this atom true m = (Ok (Some r), m1)
    ∧ (∀ create, PM.get_restraint this atom create m1 = (Ok (Some r), m1))
    ∧ num_restraints m1 = S (num_restraints m)
    ∧ ∀ a, a ≠ atom →
           PM._atom_to_restraint m1 !! a = PM._atom_to_restraint m !! a.
Proof.
  intros Habsent Hstruct Helem.
  destruct (Restraint_Mgr_Facts.new_restraint_ok this atom m Hstruct Helem)
    as (r & obj & m1 & Hnew & _ & _ & Hentry & _).
  exists r, m1.
  assert (PM._atom_to_restraint m1 = <[atom := r]> (PM._atom_to_restraint m))
    as Hmap.
  { revert Hnew Hentry. unfold PM._new_restraint, PM._new_restraint_at.
    rewrite decide_False by (intros Hne; by apply Hne).
    rewrite decide_False by done.
    unfold P.construct. destruct (coord atom) as [[x y] z]. simpl.
    intros [= <- <-]. done. }
  split_and!.
  - unfold PM.get_restraint. by rewrite Habsent, Hnew.
  - intros create. unfold PM.get_restraint. by rewrite Hentry.
  - unfold num_restraints. rewrite Hmap. by apply map_size_insert_None.
  - intros a Hne. rewrite Hmap. by apply lookup_insert_ne.
Qed.

Lemma get_restraint_again_witness :
  ∃ r m1,
    @PM.get_restraint Sample.host 30 1 true Sample.position_mgr
      = (Ok (Some r), m1)
    ∧ (∀ create,
         @PM.get_restraint Sample.host 30 1 create m1 = (Ok (Some r), m1))
    ∧ num_restraints m1 = S (num_restraints Sample.position_mgr)
    ∧ ∀ a, a ≠ 1%positive →
           PM._atom_to_restraint m1 !! a
           = PM._atom_to_restraint Sample.position_mgr !! a.
Proof.
  apply (@get_restraint_again Sample.host 30 1 Sample.position_mgr).
  - vm_compute. reflexivity.
  - vm_compute. reflexivity.
  - vm_compute. discriminate.
Defined.

(** The restraint that [get_restraint(atom, true)] makes pulls nowhere and
    is not drawn: its target vector is zero and it is not visible. *)
Theorem new_restraint_at_rest `{Host} this atom m :
  PM._atom_to_restraint m !! atom = None →
  structure atom = PM._atomic_model m → element_number atom ≠ 1%nat →
  ∃ r obj m1,
    PM.get_restraint this atom true m = (Ok (Some r), m1)
    ∧ PM.heap m1 !! r = Some obj
    ∧ target_vector obj = (0, 0, 0)
    ∧ P.visible obj = false.
Proof.
  intros Habsent Hstruct Helem.
  destruct (Restraint_Mgr_Facts.new_restraint_ok this atom m Hstruct Helem)
    as (r & obj & m1 & Hnew & _ & Hobj & _ & Hatom & _ & Hen & Htarget).
  exists r, obj, m1. split_and!.
  - unfold PM.get_restraint. by rewrite Habsent, Hnew.
  - done.
  - unfold target_vector. unfold P.get_target, P.atom in *.
    rewrite Htarget, Hatom. destruct (coord atom) as [[x y] z].
    f_equal; [f_equal|]; lra.
  - unfold P.visible. unfold P.enabled in Hen. rewrite Hen.
    apply andb_false_r.
Qed.

Lemma new_restraint_at_rest_witness :
  ∃ r obj m1,
    @PM.get_restraint Sample.host 30 1 true Sample.position_mgr
      = (Ok (Some r), m1)
    ∧ PM.heap m1 !! r = Some obj
    ∧ @target_vector Sample.host obj = (0, 0, 0)
    ∧ @P.visible Sample.host obj = false.
Proof.
  apply (@new_restraint_at_rest Sample.host 30 1 Sample.position_mgr).
  - vm_compute. reflexivity.
  - vm_compute. reflexivity.
  - vm_compute. discriminate.
Defined.

(** Deleting the restraint that [get_restraint(atom, true)] has just made
    gives back the index and the objects that the manager had before. *)
Theorem create_then_delete `{Host} this atom m :
  PM._atom_to_restraint m !! atom = None →
  structure atom = PM._atomic_model m → element_number atom ≠ 1%nat →
  ∃ r m1 m2,
    PM.get_restraint this atom true m = (Ok (Some r), m1)
    ∧ delete_restraints {[ r ]} m1 = Some m2
    ∧ PM._atom_to_restraint m2 = PM._atom_to_restraint m
    ∧ PM.heap m2 = PM.heap m.
Proof.
  intros Habsent Hstruct Helem.
  pose proof (Restraint_Mgr_Facts.fresh_unused (PM.heap m)) as Hfresh.
  unfold PM.get_restraint. rewrite Habsent.
  unfold PM._new_restraint, PM._new_restraint_at.
  rewrite decide_False by (intros Hne; by apply Hne).
  rewrite decide_False by done.
  unfold P.construct. destruct (coord atom) as [[x y] z]. simpl.
  eexists _, _, _. split; [reflexivity|].
  unfold delete_restraints, _delete_restraints.
  rewrite set_fold_singleton. simpl. unfold delete_one. simpl.
  rewrite lookup_insert_eq. simpl.
  split; [reflexivity|]. simpl. split.
  - by apply delete_insert_id.
  - by apply delete_insert_id.
Qed.

Lemma create_then_delete_witness :
  ∃ r m1 m2,
    @PM.get_restraint Sample.host 30 1 true Sample.position_mgr
      = (Ok (Some r), m1)
    ∧ delete_restraints {[ r ]} m1 = Some m2
    ∧ PM._atom_to_restraint m2 = PM._atom_to_restraint Sample.position_mgr
    ∧ PM.heap m2 = PM.heap Sample.position_mgr.
Proof.
  apply (@create_then_delete Sample.host 30 1 Sample.position_mgr).
  - vm_compute. reflexivity.
  - vm_compute. reflexivity.
  - vm_compute. discriminate.
Defined.

(** *** The restraints to draw *)

(** [visible_restraints], on a manager whose index and objects agree: the
    call is defined, and the restraints it lists are the live restraints
    that are enabled and whose atom is visible, each once. *)
Theorem visible_restraints_spec `{Host} (m : PM.t) :
  consistent m →
  ∃ visibles, visible_restraints m = Some visibles
    ∧ NoDup visibles
    ∧ ∀ r, r ∈ visibles ↔
           ∃ obj, PM.heap m !! r = Some obj
                  ∧ Atomstruct.visible (P.atom obj) = true
                  ∧ P.enabled obj = true.
Proof.
  intros Hcons.
  pose (Q := λ (acc : option (list ptr)) (mp : gmap ptr ptr),
          (∀ a r, mp !! a = Some r →
             ∃ obj, PM.heap m !! r = Some obj ∧ P.atom obj = a) →
          ∃ visibles, acc = Some visibles
            ∧ NoDup visibles
            ∧ ∀ r, r ∈ visibles ↔
                   ∃ a obj, mp !! a = Some r ∧ PM.heap m !! r = Some obj
                            ∧ P.visible obj = true).
  assert (Q (visible_restraints m) (PM._atom_to_restraint m)) as HQ.
  { unfold visible_restraints. apply (map_fold_weak_ind Q); unfold Q.
    - intros _. exists []. split_and!; [done|apply NoDup_nil_2|].
      intros r. split; [by intros ?%not_elem_of_nil|].
      intros (a & obj & Ha & _). by rewrite lookup_empty in Ha.
    - intros a r mp acc Ha IH Hlive.
      destruct IH as (l & -> & Hnd & Hl).
      { intros a' r' Ha'. apply (Hlive a'). rewrite lookup_insert_ne; [done|].
        intros <-. by rewrite Ha in Ha'. }
      destruct (Hlive a r) as (obj & Hobj & Hatom); [apply lookup_insert_eq|].
      simpl. rewrite Hobj. simpl. eexists. split; [reflexivity|].
      assert (r ∉ l) as Hrl.
      { intros (a' & obj' & Ha' & _)%Hl.
        destruct (Hlive a' r) as (obj'' & Hobj'' & Hatom'').
        { rewrite lookup_insert_ne; [done|]. intros <-. by rewrite Ha in Ha'. }
        rewrite Hobj in Hobj''. injection Hobj'' as <-.
        rewrite Hatom in Hatom''. subst a'. by rewrite Ha in Ha'. }
      destruct (P.visible obj) eqn:Hvis.
      + split.
        * apply NoDup_app. split_and!; [done| |apply NoDup_singleton].
          intros x Hx ->%list_elem_of_singleton. done.
        * intros r'. rewrite elem_of_app, list_elem_of_singleton, Hl. split.
          -- intros [(a' & obj' & Ha' & Hrest)| ->].
             ++ exists a', obj'. rewrite lookup_insert_ne; [done|].
                intros <-. by rewrite Ha in Ha'.
             ++ exists a, obj. by rewrite lookup_insert_eq.
          -- intros (a' & obj' & Ha' & Hrest).
             destruct (decide (a = a')) as [<-|Hne].
             ++ rewrite lookup_insert_eq in Ha'. right. congruence.
             ++ rewrite lookup_insert_ne in Ha' by done. left. eauto.
      + split; [done|]. intros r'. rewrite Hl. split.
        * intros (a' & obj' & Ha' & Hrest).
          exists a', obj'. rewrite lookup_insert_ne; [done|].
          intros <-. by rewrite Ha in Ha'.
        * intros (a' & obj' & Ha' & Hobj' & Hv).
          destruct (decide (a = a')) as [<-|Hne].
          -- rewrite lookup_insert_eq in Ha'. injection Ha' as <-.
             rewrite Hobj in Hobj'. injection Hobj' as <-. congruence.
          -- rewrite lookup_insert_ne in Ha' by done. eauto. }
  destruct (HQ (proj1 Hcons)) as (l & Hl & Hnd & Hin).
  exists l. split_and!; [done|done|]. intros r. rewrite Hin.
  unfold P.visible, P.atom, P.enabled. split.
  - intros (a & obj & Ha & Hobj & [Hv He]%andb_true_iff). eauto.
  - intros (obj & Hobj & Hv & He).
    exists (P._atom obj), obj. split_and!; [|done|].
    + by apply (proj2 Hcons).
    + by rewrite Hv, He.
Qed.

(** The sample manager that holds an enabled restraint at address 40 and
    a disabled one at address 42 is consistent. *)
Lemma sample_on_consistent : consistent Sample_More.position_mgr_on.
Proof.
  split.
  - intros a r Ha. simpl in Ha.
    apply lookup_insert_Some in Ha as [[<- <-]|[Hne Ha]].
    + exists Sample_More.position_restraint_on. split; [|reflexivity].
      simpl. apply lookup_insert_eq.
    + apply lookup_singleton_Some in Ha as [<- <-].
      exists Sample_More.position_restraint_off. split; [|reflexivity].
      simpl. rewrite lookup_insert_ne by done. apply lookup_singleton_eq.
  - intros r obj Hr. simpl in Hr.
    apply lookup_insert_Some in Hr as [[<- <-]|[Hne Hr]].
    + simpl. apply lookup_insert_eq.
    + apply lookup_singleton_Some in Hr as [<- <-].
      simpl. rewrite lookup_insert_ne by done. apply lookup_singleton_eq.
Qed.

(** On that manager, with every atom of the sample host visible, the
    enabled restraint 40 is listed and the disabled restraint 42 is not. *)
Lemma visible_restraints_spec_witness :
  ∃ visibles, @visible_restraints Sample.host Sample_More.position_mgr_on
              = Some visibles
    ∧ NoDup visibles
    ∧ (∀ r, r ∈ visibles ↔
            ∃ obj, PM.heap Sample_More.position_mgr_on !! r = Some obj
                   ∧ @Atomstruct.visible Sample.host (P.atom obj) = true
                   ∧ P.enabled obj = true)
    ∧ 40%positive ∈ visibles
    ∧ (42%positive ∉ visibles).
Proof.
  destruct (@visible_restraints_spec Sample.host Sample_More.position_mgr_on
              sample_on_consistent) as (visibles & Hvisibles & Hnodup & Hin).
  exists visibles. split_and!; [done|done|done| |].
  - apply Hin. exists Sample_More.position_restraint_on.
    split_and!; [|reflexivity|reflexivity].
    simpl. apply lookup_insert_eq.
  - intros (obj & Hobj & _ & Henabled)%Hin. simpl in Hobj.
    rewrite lookup_insert_ne in Hobj by done.
    apply lookup_singleton_Some in Hobj as [_ <-]. discriminate.
Defined.

End Position_Restraint_Mgr_More.

(** ** More on the restraints *)

Module Restraint_More.
Import Constants Change_Tracker.
Local Open Scope R_scope.

(** *** The radius as a function of the spring constant *)

Lemma ratio_le k1 k2 :
  k1 <= k2 →
  k1 / MAX_LINEAR_SPRING_CONSTANT <= k2 / MAX_LINEAR_SPRING_CONSTANT.
Proof.
  intros Hle. unfold Rdiv, MAX_LINEAR_SPRING_CONSTANT.
  apply Rmult_le_compat_r; [|done]. lra.
Qed.

(** The radius grows with the spring constant, from
    [LINEAR_RESTRAINT_MIN_RADIUS] at 0 to [LINEAR_RESTRAINT_MAX_RADIUS] at
    [MAX_LINEAR_SPRING_CONSTANT]; for distance restraints and for position
    restraints. *)
Theorem radius_monotone :
  (∀ r1 r2 : D.t,
     0 <= D.get_k r1 → D.get_k r1 <= D.get_k r2 →
     D.radius r1 <= D.radius r2)
  ∧ (∀ r1 r2 : P.t,
       P.get_k r1 <= P.get_k r2 → P.radius r1 <= P.radius r2)
  ∧ (∀ r : D.t,
       (D.get_k r = 0 → D.radius r = LINEAR_RESTRAINT_MIN_RADIUS)
       ∧ (D.get_k r = MAX_LINEAR_SPRING_CONSTANT →
          D.radius r = LINEAR_RESTRAINT_MAX_RADIUS))
  ∧ (∀ r : P.t,
       (P.get_k r = 0 → P.radius r = LINEAR_RESTRAINT_MIN_RADIUS)
       ∧ (P.get_k r = MAX_LINEAR_SPRING_CONSTANT →
          P.radius r = LINEAR_RESTRAINT_MAX_RADIUS)).
Proof.
  split_and!.
  - intros r1 r2 H0 Hle. unfold D.radius, D.get_k in *.
    pose proof (sqrt_le_1_alt _ _ (ratio_le _ _ Hle)) as Hsqrt.
    unfold LINEAR_RESTRAINT_MAX_RADIUS, LINEAR_RESTRAINT_MIN_RADIUS. nra.
  - intros r1 r2 Hle. unfold P.radius, P.get_k in *.
    pose proof (ratio_le _ _ Hle) as Hratio.
    unfold LINEAR_RESTRAINT_MAX_RADIUS, LINEAR_RESTRAINT_MIN_RADIUS. nra.
  - intros r. unfold D.radius, D.get_k. split; intros ->.
    + unfold Rdiv. rewrite Rmult_0_l, sqrt_0. lra.
    + unfold Rdiv. rewrite Rinv_r, sqrt_1
        by (unfold MAX_LINEAR_SPRING_CONSTANT; lra). lra.
  - intros r. unfold P.radius, P.get_k. split; intros ->.
    + unfold Rdiv. rewrite Rmult_0_l. lra.
    + unfold Rdiv. rewrite Rinv_r
        by (unfold MAX_LINEAR_SPRING_CONSTANT; lra). lra.
Qed.

Lemma radius_monotone_witness :
  D.radius (D.mk (1, 5)%positive 31 2 0 false)
    <= D.radius Sample.distance_restraint
  ∧ P.radius Sample.position_restraint
    <= P.radius (P.mk 1 (1, 0, 0) 30 50 false)
  ∧ D.radius (D.mk (1, 5)%positive 31 2 0 false) = LINEAR_RESTRAINT_MIN_RADIUS
  ∧ P.radius (P.mk 1 (1, 0, 0) 30 MAX_LINEAR_SPRING_CONSTANT false)
    = LINEAR_RESTRAINT_MAX_RADIUS.
Proof.
  split_and!.
  - apply (proj1 radius_monotone); simpl; lra.
  - apply (proj1 (proj2 radius_monotone)); simpl; lra.
  - apply (proj1 (proj1 (proj2 (proj2 radius_monotone)) _)). reflexivity.
  - apply (proj2 (proj2 (proj2 (proj2 radius_monotone)) _)). reflexivity.
Defined.

(** *** Sequences of setter calls on a distance restraint *)

Lemma step_reports this o s :
  D._atoms (D.step this o s).1 = D._atoms s.1
  ∧ D._mgr (D.step this o s).1 = D._mgr s.1
  ∧ ∃ events, (D.step this o s).2 = s.2 ++ events
      ∧ (length events ≤ 1)%nat
      ∧ Forall (λ e, ∃ reason, e = Modified (D._mgr s.1) this reason) events.
Proof.
  destruct o as [target|k|flag]; unfold D.step.
  - split_and!; [done|done|]. eexists [_]. split_and!; [done|done|].
    apply Forall_singleton. eauto.
  - split_and!; [done|done|]. eexists [_]. split_and!; [done|done|].
    apply Forall_singleton. eauto.
  - unfold D.set_enabled. case_decide.
    + split_and!; [done|done|]. eexists [_]. split_and!; [done|done|].
      apply Forall_singleton. eauto.
    + split_and!; [done|done|]. exists []. split_and!; [|simpl; lia|done].
      by rewrite app_nil_r.
Qed.

(** A sequence of setter calls on a distance restraint leaves its two
    atoms and its manager as they were, keeps what the change tracker
    held, and adds to it at most one event for each call, each of them
    about this restraint and its manager. *)
Theorem run_reports this os s :
  D._atoms (D.run this os s).1 = D._atoms s.1
  ∧ D._mgr (D.run this os s).1 = D._mgr s.1
  ∧ ∃ events, (D.run this os s).2 = s.2 ++ events
      ∧ (length events ≤ length os)%nat
      ∧ Forall (λ e, ∃ reason, e = Modified (D._mgr s.1) this reason) events.
Proof.
  revert s. induction os as [|o os IH]; intros s.
  - split_and!; [done|done|]. exists []. split_and!; [|done|done].
    simpl. by rewrite app_nil_r.
  - simpl.
    destruct (step_reports this o s) as (Ha & Hm & ev1 & Hev1 & Hlen1 & Hall1).
    destruct (IH (D.step this o s)) as (Ha' & Hm' & ev2 & Hev2 & Hlen2 & Hall2).
    split_and!; [congruence|congruence|].
    exists (ev1 ++ ev2). split_and!.
    + rewrite Hev2, Hev1. by rewrite app_assoc.
    + rewrite length_app. simpl. lia.
    + apply Forall_app. split; [done|]. by rewrite <-Hm.
Qed.

(** *** Writing back what was read *)

(** Writing back the value a getter returned leaves it as it was:
    [set_k(get_k())] when the spring constant is within its range,
    [set_target(get_target())] when the target of a distance restraint is
    at or above its floor, [set_enabled(enabled())] always, which then
    reports nothing. *)
Theorem set_get_round_trip this ct :
  (∀ r : D.t,
     0 <= D.get_k r <= MAX_LINEAR_SPRING_CONSTANT →
     (D.set_k this (D.get_k r) r ct).1 = r)
  ∧ (∀ r : P.t,
       0 <= P.get_k r <= MAX_LINEAR_SPRING_CONSTANT →
       (P.set_k this (P.get_k r) r ct).1 = r)
  ∧ (∀ r : D.t,
       MIN_DISTANCE_RESTRAINT_TARGET <= D.get_target r →
       (D.set_target this (D.get_target r) r ct).1 = r)
  ∧ (∀ r : D.t, D.set_enabled this (D.enabled r) r ct = (r, ct))
  ∧ (∀ r : P.t, P.set_enabled this (P.enabled r) r ct = (r, ct)).
Proof.
  split_and!.
  - intros [a mg tg k en] [Hlo Hhi]. simpl in *.
    destruct (Rlt_dec k 0); [lra|].
    destruct (Rgt_dec k MAX_LINEAR_SPRING_CONSTANT); [lra|]. done.
  - intros [a tg mg k en] [Hlo Hhi]. simpl in *.
    destruct (Rlt_dec k 0); [lra|].
    destruct (Rgt_dec k MAX_LINEAR_SPRING_CONSTANT); [lra|]. done.
  - intros [a mg tg k en] Hfloor. simpl in *.
    destruct (Rlt_dec tg MIN_DISTANCE_RESTRAINT_TARGET); [lra|]. done.
  - intros r. unfold D.set_enabled, D.enabled. by rewrite decide_False by auto.
  - intros r. unfold P.set_enabled, P.enabled. by rewrite decide_False by auto.
Qed.

Lemma set_get_round_trip_witness :
  (D.set_k 41 (D.get_k Sample.distance_restraint) Sample.distance_restraint []).1
    = Sample.distance_restraint
  ∧ (P.set_k 40 (P.get_k Sample.position_restraint)
       Sample.position_restraint []).1
    = Sample.position_restraint
  ∧ (D.set_target 41 (D.get_target Sample.distance_restraint)
       Sample.distance_restraint []).1
    = Sample.distance_restraint.
Proof.
  split_and!.
  - apply (proj1 (set_get_round_trip 41%positive [])).
    unfold MAX_LINEAR_SPRING_CONSTANT. simpl. lra.
  - apply (proj1 (proj2 (set_get_round_trip 40%positive []))).
    unfold MAX_LINEAR_SPRING_CONSTANT. simpl. lra.
  - apply (proj1 (proj2 (proj2 (set_get_round_trip 41%positive [])))).
    unfold MIN_DISTANCE_RESTRAINT_TARGET. simpl. lra.
Defined.

End Restraint_More.

(** ** More on the target angle of a dihedral *)

Module Dihedral_Target_More.
Import Constants Cmath Dihedral_Target.
Local Open Scope R_scope.

(** A quotient within one half of zero rounds to zero, ties included. *)
Lemma rint_even_small q : -(1 / 2) <= q <= 1 / 2 → rint_even q = 0%Z.
Proof.
  intros [Hlo Hhi]. unfold rint_even, frac_part.
  destruct (Rlt_dec q 0) as [Hneg|Hpos].
  - assert (Int_part q = (-1)%Z) as ->
      by (symmetry; apply Int_part_spec; simpl; lra).
    simpl. destruct (Rlt_dec (q - -1) (1 / 2)); [lra|].
    destruct (Rlt_dec (1 / 2) (q - -1)); reflexivity.
  - assert (Int_part q = 0%Z) as ->
      by (symmetry; apply Int_part_spec; simpl; lra).
    simpl. destruct (Rlt_dec (q - 0) (1 / 2)); [done|].
    destruct (Rlt_dec (1 / 2) (q - 0)); [lra|]. reflexivity.
Qed.

Lemma remainder_fixed x y :
  0 < y → -(y / 2) <= x <= y / 2 → remainder x y = x.
Proof.
  intros Hy [Hlo Hhi]. unfold remainder. rewrite rint_even_small; [lra|].
  split.
  - apply Rmult_le_reg_r with y; [done|].
    unfold Rdiv at 2. rewrite Rmult_assoc, Rinv_l by lra. lra.
  - apply Rmult_le_reg_r with y; [done|].
    unfold Rdiv at 1. rewrite Rmult_assoc, Rinv_l by lra. lra.
Qed.

(** An angle between -π and π, both included, is stored as it is. *)
Theorem set_target_in_range d x :
  - PI <= x <= PI → target (set_target x d) = Some x.
Proof.
  intros [Hlo Hhi]. unfold target, set_target. simpl. f_equal.
  apply remainder_fixed; [apply Dihedral_Target_Facts.TWO_PI_pos|].
  unfold TWO_PI. lra.
Qed.

Lemma set_target_in_range_witness :
  target (set_target 1 Sample.phi) = Some 1.
Proof.
  apply (set_target_in_range Sample.phi 1).
  pose proof PI_RGT_0. pose proof PI2_1. unfold PI2 in *. lra.
Defined.

(** Setting the target to the value that [target()] returns changes
    nothing: [set_target] is idempotent. *)
Theorem set_target_idempotent d x :
  ∃ y, target (set_target x d) = Some y
       ∧ set_target y (set_target x d) = set_target x d.
Proof.
  exists (remainder x TWO_PI). split; [reflexivity|].
  unfold set_target. simpl. do 2 f_equal.
  apply remainder_fixed; [apply Dihedral_Target_Facts.TWO_PI_pos|].
  apply Dihedral_Target_Facts.remainder_range,
    Dihedral_Target_Facts.TWO_PI_pos.
Qed.

End Dihedral_Target_More.

(** ** custom_forces.cpp *)

Module Custom_Forces_Facts.
Import OpenMM Custom_Forces.

Lemma read_Some {A} (n : nat) (l : list A) :
  n ≤ length l → read n l = Some (take n l, drop n l).
Proof. intros Hn. unfold read. by rewrite decide_True. Qed.

Lemma add_bonds_loop_spec n n_params p_indices params f out :
  n * n_params ≤ length params → 2 * n ≤ length p_indices →
  ∃ f', add_bonds_loop n n_params p_indices params f out
        = Some (mkAdded f'
                  (out ++ ((λ i, Z.of_nat (length (bonds f) + i)) <$> seq 0 n))
                  false)
    ∧ numPerBondParameters f' = numPerBondParameters f
    ∧ length (bonds f') = length (bonds f) + n
    ∧ (∀ j b, bonds f !! j = Some b → bonds f' !! j = Some b)
    ∧ ∀ i, i < n →
        ∃ b, bonds f' !! (length (bonds f) + i) = Some b
             ∧ p_indices !! (2 * i) = Some (particle1 b)
             ∧ p_indices !! (2 * i + 1) = Some (particle2 b)
             ∧ parameters b = take n_params (drop (i * n_params) params).
Proof.
  revert p_indices params f out.
  induction n as [|n IH]; intros p_indices params f out Hparams Hp.
  - exists f. simpl. rewrite app_nil_r.
    split_and!; first [done|lia|intros; lia].
  - simpl. rewrite read_Some by lia. simpl.
    destruct p_indices as [|p1 [|p2 rest]]; simpl in Hp; try lia.
    rewrite read_Some by (simpl; lia). simpl. rewrite drop_0.
    destruct (IH rest (drop n_params params)
                (mkForce (numPerBondParameters f)
                   (bonds f ++ [mkBond p1 p2 (take n_params params)]))
                (out ++ [Z.of_nat (length (bonds f))]))
      as (f' & Hloop & Hnp & Hlen & Hprefix & Hnew).
    { rewrite length_drop. lia. }
    { lia. }
    simpl in *. rewrite length_app in *. simpl in *.
    exists f'. split_and!.
    + rewrite Hloop. do 2 f_equal. rewrite <-app_assoc. f_equal. simpl.
      rewrite Nat.add_0_r. f_equal.
      rewrite <-fmap_S_seq, <-list_fmap_compose.
      apply list_fmap_ext. intros _ i _. simpl. f_equal. lia.
    + done.
    + lia.
    + intros j b Hj. apply Hprefix. by apply lookup_app_l_Some.
    + intros [|i] Hi.
      * exists (mkBond p1 p2 (take n_params params)). simpl.
        rewrite Nat.add_0_r. split_and!; try done.
        apply Hprefix. rewrite lookup_app_r by lia.
        by rewrite Nat.sub_diag.
      * destruct (Hnew i) as (b & Hb & Hp1 & Hp2 & Hpar); [lia|].
        exists b. split_and!.
        -- rewrite <-Hb. f_equal. lia.
        -- rewrite <-Hp1.
           change (rest !! (i + (i + 0)))
             with ((p1 :: p2 :: rest) !! S (S (i + (i + 0)))).
           f_equal. lia.
        -- rewrite <-Hp2.
           change (rest !! (i + (i + 0) + 1))
             with ((p1 :: p2 :: rest) !! S (S (i + (i + 0) + 1))).
           f_equal. lia.
        -- rewrite Hpar, drop_drop. by do 2 f_equal.
Qed.

(** [custombondforce_add_bonds] with arrays long enough for [n] bonds is
    defined and calls no [molc_error()]; it keeps the bonds the force had
    and appends [n] bonds; the indices it returns are those of the new
    bonds, consecutive from the number of bonds the force had; and the
    [i]-th new bond is between the [i]-th pair of [p_indices], with the
    [i]-th slice of [params] as its parameters. *)
Theorem add_bonds_spec force n p_indices params :
  n * getNumPerBondParameters force ≤ length params →
  2 * n ≤ length p_indices →
  ∃ f', custombondforce_add_bonds force n p_indices params
        = Some (mkAdded f'
                  ((λ i, Z.of_nat (length (bonds force) + i)) <$> seq 0 n)
                  false)
    ∧ length (bonds f') = length (bonds force) + n
    ∧ (∀ j b, bonds force !! j = Some b → bonds f' !! j = Some b)
    ∧ ∀ i, i < n →
        ∃ b, bonds f' !! (length (bonds force) + i) = Some b
             ∧ p_indices !! (2 * i) = Some (particle1 b)
             ∧ p_indices !! (2 * i + 1) = Some (particle2 b)
             ∧ parameters b
               = take (getNumPerBondParameters force)
                   (drop (i * getNumPerBondParameters force) params).
Proof.
  intros Hparams Hp. unfold custombondforce_add_bonds.
  destruct (add_bonds_loop_spec n (getNumPerBondParameters force) p_indices
              params force [] Hparams Hp)
    as (f' & Hloop & _ & Hlen & Hprefix & Hnew).
  exists f'. by rewrite Hloop.
Qed.

(** Two bonds added to an empty force with two parameters per bond. *)
Lemma add_bonds_spec_witness :
  ∃ f', custombondforce_add_bonds (mkForce 2 []) 2 [0; 1; 2; 3]%Z
          [1; 2; 3; 4]%R
        = Some (mkAdded f' ((λ i, Z.of_nat (0 + i)) <$> seq 0 2) false)
    ∧ length (bonds f') = 0 + 2
    ∧ (∀ j b, bonds (mkForce 2 []) !! j = Some b → bonds f' !! j = Some b)
    ∧ ∀ i, i < 2 →
        ∃ b, bonds f' !! (0 + i) = Some b
             ∧ [0; 1; 2; 3]%Z !! (2 * i) = Some (particle1 b)
             ∧ [0; 1; 2; 3]%Z !! (2 * i + 1) = Some (particle2 b)
             ∧ parameters b = take 2 (drop (i * 2) [1; 2; 3; 4]%R).
Proof.
  apply (add_bonds_spec (mkForce 2 []) 2 [0; 1; 2; 3]%Z [1; 2; 3; 4]%R);
    simpl; lia.
Defined.

Lemma setBondParameters_length index p1 p2 params f f' :
  setBondParameters index p1 p2 params f = Some f' →
  length (bonds f') = length (bonds f)
  ∧ numPerBondParameters f' = numPerBondParameters f.
Proof.
  unfold setBondParameters. case_decide; [|done]. intros [= <-]. simpl.
  by rewrite length_insert.
Qed.

Lemma update_loop_spec n n_params indices params f :
  numPerBondParameters f = n_params → well_formed f →
  n ≤ length indices → n * n_params ≤ length params →
  Forall (λ index, (0 ≤ index < Z.of_nat (length (bonds f)))%Z)
         (take n indices) →
  ∃ f', update_loop n n_params indices params f = Some (f', false)
    ∧ numPerBondParameters f' = n_params
    ∧ well_formed f'
    ∧ length (bonds f') = length (bonds f)
    ∧ (∀ j b, bonds f !! j = Some b →
         ∃ b', bonds f' !! j = Some b'
               ∧ particle1 b' = particle1 b ∧ particle2 b' = particle2 b)
    ∧ (∀ j, Z.of_nat j ∉ take n indices → bonds f' !! j = bonds f !! j)
    ∧ (NoDup (take n indices) →
       ∀ i index, i < n → indices !! i = Some index →
         ∃ b', bonds f' !! Z.to_nat index = Some b'
               ∧ parameters b' = take n_params (drop (i * n_params) params)).
Proof.
  revert indices params f.
  induction n as [|n IH]; intros indices params f Hnp Hwf Hn Hparams Hvalid.
  - exists f. simpl. split_and!; try done.
    + intros j b Hj. eauto.
    + intros _ i index Hi. lia.
  - destruct indices as [|index0 rest]; simpl in Hn; [lia|].
    simpl in Hvalid. apply Forall_cons in Hvalid as [[H0 Hlt] Hvalid].
    assert (Z.to_nat index0 < length (bonds f)) as Hk by lia.
    destruct (lookup_lt_is_Some_2 _ _ Hk) as [b Hb].
    assert (length (parameters b) = n_params) as Hlen_b.
    { unfold well_formed in Hwf. rewrite Forall_forall in Hwf.
      rewrite <-Hnp. apply Hwf. by apply (list_elem_of_lookup_2 _ (Z.to_nat index0)). }
    simpl. rewrite drop_0.
    unfold getBondParameters. rewrite decide_True by done. rewrite Hb.
    rewrite decide_True by lia. rewrite read_Some by lia. simpl.
    rewrite (drop_ge (parameters b)) by lia. rewrite app_nil_r.
    unfold setBondParameters. rewrite decide_True by lia.
    set (b1 := mkBond (particle1 b) (particle2 b) (take n_params params)).
    set (f1 := mkForce (numPerBondParameters f)
                 (<[Z.to_nat index0 := b1]> (bonds f))).
    destruct (IH rest (drop n_params params) f1)
      as (f' & Hloop & Hnp' & Hwf' & Hlen' & Hpart & Hkeep & Hslices).
    { done. }
    { unfold well_formed, f1. simpl. apply Forall_insert; [done|].
      simpl. rewrite length_take. lia. }
    { lia. }
    { rewrite length_drop. lia. }
    { unfold f1. simpl. by rewrite length_insert. }
    unfold f1 in Hlen', Hpart, Hkeep. simpl in Hlen', Hpart, Hkeep.
    rewrite length_insert in Hlen'.
    exists f'. split_and!; try done.
    + intros j b0 Hj. destruct (decide (j = Z.to_nat index0)) as [->|Hne].
      * rewrite Hb in Hj. injection Hj as <-.
        destruct (Hpart (Z.to_nat index0) b1) as (b' & Hb' & Hp1 & Hp2);
          [by apply list_lookup_insert_eq|].
        exists b'. done.
      * apply Hpart. by rewrite list_lookup_insert_ne.
    + intros j Hj. apply not_elem_of_cons in Hj as [Hj0 Hj].
      rewrite Hkeep by done. apply list_lookup_insert_ne. lia.
    + intros Hnd i index Hi Hindex. apply NoDup_cons in Hnd as [Hnot Hnd].
      destruct i as [|i]; simpl in Hindex.
      * injection Hindex as <-. rewrite Hkeep.
        -- exists b1. split; [by apply list_lookup_insert_eq|]. done.
        -- by rewrite Z2Nat.id.
      * destruct (Hslices Hnd i index) as (b' & Hb' & Hpar); [lia|done|].
        exists b'. split; [done|]. rewrite Hpar, drop_drop. by do 2 f_equal.
Qed.

(** [custombondforce_update_bond_parameters] on a force whose bonds all
    have the declared number of parameters, with indices of bonds and
    arrays long enough: the call is defined and calls no [molc_error()];
    the force has as many bonds as before, each between the same two
    particles and with the declared number of parameters; and the bonds
    whose index is not in [indices] are as they were. *)
Theorem update_keeps_bonds force n indices params :
  well_formed force →
  n ≤ length indices →
  n * getNumPerBondParameters force ≤ length params →
  Forall (λ index, (0 ≤ index < Z.of_nat (length (bonds force)))%Z)
         (take n indices) →
  ∃ f', custombondforce_update_bond_parameters force n indices params
        = Some (f', false)
    ∧ well_formed f'
    ∧ length (bonds f') = length (bonds force)
    ∧ (∀ j b, bonds force !! j = Some b →
         ∃ b', bonds f' !! j = Some b'
               ∧ particle1 b' = particle1 b ∧ particle2 b' = particle2 b)
    ∧ (∀ j, Z.of_nat j ∉ take n indices →
         bonds f' !! j = bonds force !! j).
Proof.
  intros Hwf Hn Hparams Hvalid.
  destruct (update_loop_spec n (getNumPerBondParameters force) indices params
              force eq_refl Hwf Hn Hparams Hvalid)
    as (f' & Hloop & _ & Hwf' & Hlen & Hpart & Hkeep & _).
  exists f'. done.
Qed.

(** Under the same conditions, and with no index given twice, the bond at
    the [i]-th index has the [i]-th slice of [params] as its parameters
    after the call. *)
Theorem update_writes_slices force n indices params :
  well_formed force →
  n ≤ length indices →
  n * getNumPerBondParameters force ≤ length params →
  Forall (λ index, (0 ≤ index < Z.of_nat (length (bonds force)))%Z)
         (take n indices) →
  NoDup (take n indices) →
  ∃ f', custombondforce_update_bond_parameters force n indices params
        = Some (f', false)
    ∧ ∀ i index, i < n → indices !! i = Some index →
        ∃ b', bonds f' !! Z.to_nat index = Some b'
              ∧ parameters b'
                = take (getNumPerBondParameters force)
                    (drop (i * getNumPerBondParameters force) params).
Proof.
  intros Hwf Hn Hparams Hvalid Hnd.
  destruct (update_loop_spec n (getNumPerBondParameters force) indices params
              force eq_refl Hwf Hn Hparams Hvalid)
    as (f' & Hloop & _ & _ & _ & _ & _ & Hslices).
  exists f'. split; [done|]. by apply Hslices.
Qed.

Lemma sample_force_well_formed : well_formed sample_force.
Proof. repeat constructor. Qed.

Lemma update_keeps_bonds_witness :
  ∃ f', custombondforce_update_bond_parameters sample_force 1 [1%Z] [9; 8]%R
        = Some (f', false)
    ∧ well_formed f'
    ∧ length (bonds f') = length (bonds sample_force)
    ∧ (∀ j b, bonds sample_force !! j = Some b →
         ∃ b', bonds f' !! j = Some b'
               ∧ particle1 b' = particle1 b ∧ particle2 b' = particle2 b)
    ∧ (∀ j, Z.of_nat j ∉ take 1 [1%Z] →
         bonds f' !! j = bonds sample_force !! j).
Proof.
  apply (update_keeps_bonds sample_force 1 [1%Z] [9; 8]%R
           sample_force_well_formed).
  - simpl. lia.
  - simpl. lia.
  - simpl. apply Forall_singleton. lia.
Defined.

Lemma update_writes_slices_witness :
  ∃ f', custombondforce_update_bond_parameters sample_force 1 [1%Z] [9; 8]%R
        = Some (f', false)
    ∧ ∀ i index, i < 1 → [1%Z] !! i = Some index →
        ∃ b', bonds f' !! Z.to_nat index = Some b'
              ∧ parameters b'
                = take (getNumPerBondParameters sample_force)
                    (drop (i * getNumPerBondParameters sample_force)
                       [9; 8]%R).
Proof.
  apply (update_writes_slices sample_force 1 [1%Z] [9; 8]%R
           sample_force_well_formed).
  - simpl. lia.
  - simpl. lia.
  - simpl. apply Forall_singleton. lia.
  - simpl. apply NoDup_singleton.
Defined.

Lemma update_loop_stops pre n n_params bad post params f f1 :
  update_loop (length pre) n_params pre params f = Some (f1, false) →
  length pre < n →
  ¬ (0 ≤ bad < Z.of_nat (length (bonds f)))%Z →
  update_loop n n_params (pre ++ bad :: post) params f = Some (f1, true).
Proof.
  revert n params f.
  induction pre as [|index0 pre IH]; intros n params f Hpre Hn Hbad.
  - simpl in Hpre. injection Hpre as <-.
    destruct n as [|n]; [simpl in Hn; lia|]. simpl.
    unfold getBondParameters. case_decide; [|done].
    rewrite lookup_ge_None_2 by lia. done.
  - destruct n as [|n]; [simpl in Hn; lia|]. simpl in Hn.
    simpl in Hpre. simpl. rewrite drop_0 in *.
    destruct (getBondParameters index0 f) as [b|]; [|done].
    case_decide; [|done].
    destruct (read n_params params) as [[new params']|]; [|done].
    simpl in *.
    destruct (setBondParameters index0 (particle1 b) (particle2 b)
                (new ++ drop n_params (parameters b)) f) as [f'|] eqn:Hset;
      [|done].
    apply IH; [done|lia|].
    by rewrite (proj1 (setBondParameters_length _ _ _ _ _ _ Hset)).
Qed.

(** When an index of [indices] is not the index of a bond,
    [custombondforce_update_bond_parameters] calls [molc_error()] and
    stops there: the updates for the indices before it stay applied, those
    for the indices after it are not made. *)
Theorem update_stops_at_bad_index force pre bad post n params f1 :
  custombondforce_update_bond_parameters force (length pre) pre params
    = Some (f1, false) →
  length pre < n →
  ¬ (0 ≤ bad < Z.of_nat (length (bonds force)))%Z →
  custombondforce_update_bond_parameters force n (pre ++ bad :: post) params
    = Some (f1, true).
Proof. apply update_loop_stops. Qed.

Lemma update_stops_at_bad_index_witness :
  custombondforce_update_bond_parameters sample_force 3 [1; 7; 0]%Z
    [9; 8; 7; 6; 5; 4]%R
  = Some (mkForce 2 [mkBond 0 1 [1; 2]%R; mkBond 2 3 [9; 8]%R], true).
Proof.
  apply (update_stops_at_bad_index sample_force [1%Z] 7 [0%Z] 3
           [9; 8; 7; 6; 5; 4]%R).
  - reflexivity.
  - simpl. lia.
  - simpl. lia.
Defined.

End Custom_Forces_Facts.

(** ** The restraints on doubles with their special values *)

Module Restraint_Double_Facts.
Import Constants Change_Tracker.
Local Open Scope R_scope.


(** *** The two models agree on real numbers *)

(** On a restraint whose doubles are reals and for a real argument, the
    setters of [Distance_Restraint_Double] do what those of
    [Distance_Restraint] do. *)
Lemma set_target_of_real this target r ct :
  DD.set_target this (Double.Fin target) (DD.of_real r) ct
  = (DD.of_real (D.set_target this target r ct).1,
     (D.set_target this target r ct).2).
Proof.
  unfold DD.set_target, D.set_target, DD.of_real. simpl.
  by destruct (Rlt_dec target MIN_DISTANCE_RESTRAINT_TARGET).
Qed.

Lemma set_k_of_real this k r ct :
  DD.set_k this (Double.Fin k) (DD.of_real r) ct
  = (DD.of_real (D.set_k this k r ct).1, (D.set_k this k r ct).2).
Proof.
  unfold DD.set_k, D.set_k, DD.of_real. simpl.
  destruct (Rlt_dec k 0); [done|].
  destruct (Rgt_dec k MAX_LINEAR_SPRING_CONSTANT) as [Hgt|Hgt];
    destruct (Rlt_dec MAX_LINEAR_SPRING_CONSTANT k) as [Hlt|Hlt];
    try reflexivity; unfold Rgt in Hgt; contradiction.
Qed.

Lemma set_enabled_of_real this flag r ct :
  DD.set_enabled this flag (DD.of_real r) ct
  = (DD.of_real (D.set_enabled this flag r ct).1,
     (D.set_enabled this flag r ct).2).
Proof.
  unfold DD.set_enabled, D.set_enabled, DD.of_real. simpl.
  by case_decide.
Qed.

Lemma step_of_real this o s :
  DD.step this (DD.op_of_real o) (DD.of_real s.1, s.2)
  = (DD.of_real (D.step this o s).1, (D.step this o s).2).
Proof.
  destruct o as [target|k|flag]; simpl.
  - apply set_target_of_real.
  - apply set_k_of_real.
  - apply set_enabled_of_real.
Qed.

(** So a sequence of setter calls with real arguments runs alike in the
    two. *)
Lemma run_of_real this os s :
  DD.run this (DD.op_of_real <$> os) (DD.of_real s.1, s.2)
  = (DD.of_real (D.run this os s).1, (D.run this os s).2).
Proof.
  revert s. induction os as [|o os IH]; intros s; [done|].
  simpl. rewrite step_of_real. apply (IH (D.step this o s)).
Qed.

(** The radius of a distance restraint whose spring constant is a real
    that is not negative, and of a position restraint whose spring
    constant is a real, is the real of [radius]. *)
Lemma radius_of_real :
  (∀ r : D.t, 0 <= D.get_k r →
     DD.radius (DD.of_real r) = Double.Fin (D.radius r))
  ∧ (∀ r : P.t, PD.radius (PD.of_real r) = Double.Fin (P.radius r)).
Proof.
  split; [|done]. intros r Hk. unfold DD.radius, D.radius, D.get_k in *. simpl.
  destruct (Rlt_dec (D._spring_constant r / MAX_LINEAR_SPRING_CONSTANT) 0)
    as [Hneg|_]; [|done].
  exfalso. apply (Rlt_not_le _ _ Hneg).
  apply Rmult_le_reg_r with MAX_LINEAR_SPRING_CONSTANT;
    [apply Restraint_Facts.MAX_LINEAR_SPRING_CONSTANT_pos|].
  unfold Rdiv. rewrite Rmult_assoc, Rinv_l
    by (unfold MAX_LINEAR_SPRING_CONSTANT; lra).
  lra.
Qed.

(** *** What the clamps store *)

(** The target [set_target] stores: the floor for a target below it, the
    target given otherwise, a NaN included. *)
Lemma set_target_stored this target r ct :
  (Double.le (Double.Fin MIN_DISTANCE_RESTRAINT_TARGET) target →
   DD.get_target (DD.set_target this target r ct).1 = target)
  ∧ (Double.lt target (Double.Fin MIN_DISTANCE_RESTRAINT_TARGET) →
     DD.get_target (DD.set_target this target r ct).1
     = Double.Fin MIN_DISTANCE_RESTRAINT_TARGET)
  ∧ (target ≠ Double.NaN →
     Double.le (Double.Fin MIN_DISTANCE_RESTRAINT_TARGET)
       (DD.get_target (DD.set_target this target r ct).1))
  ∧ (target = Double.NaN →
     DD.get_target (DD.set_target this target r ct).1 = Double.NaN).
Proof.
  unfold DD.get_target, DD.set_target. simpl.
  destruct (Double.lt_dec target (Double.Fin MIN_DISTANCE_RESTRAINT_TARGET))
    as [Hlt|Hlt]; destruct target as [| |x|]; simpl in *;
    split_and!; intros; try done; try lra.
Qed.

(** The spring constant [set_k] stores: 0 for a constant below 0,
    [MAX_LINEAR_SPRING_CONSTANT] for one above it, the constant given
    otherwise, a NaN included. *)
Lemma clamp_k_stored (k : Double.t) :
  let stored :=
    if Double.lt_dec k (Double.Fin 0) then Double.Fin 0
    else if Double.gt_dec k (Double.Fin MAX_LINEAR_SPRING_CONSTANT)
         then Double.Fin MAX_LINEAR_SPRING_CONSTANT else k in
  (k ≠ Double.NaN →
   ∃ x, stored = Double.Fin x ∧ 0 <= x <= MAX_LINEAR_SPRING_CONSTANT)
  ∧ (k = Double.NaN → stored = Double.NaN).
Proof.
  pose proof Restraint_Facts.MAX_LINEAR_SPRING_CONSTANT_pos as Hmax.
  destruct k as [| |x|]; simpl;
    [| |destruct (Rlt_dec x 0);
        [|destruct (Rlt_dec MAX_LINEAR_SPRING_CONSTANT x)]|];
    split; intros; try done; eexists; (split; [reflexivity|lra]).
Qed.

Lemma set_k_stored this k r ct :
  (k ≠ Double.NaN →
   Double.le (Double.Fin 0) (DD.get_k (DD.set_k this k r ct).1)
   ∧ Double.le (DD.get_k (DD.set_k this k r ct).1)
       (Double.Fin MAX_LINEAR_SPRING_CONSTANT))
  ∧ (k = Double.NaN → DD.get_k (DD.set_k this k r ct).1 = Double.NaN).
Proof.
  destruct (clamp_k_stored k) as [Hnum Hnan]. cbv zeta in Hnum, Hnan.
  unfold DD.get_k, DD.set_k. cbn [fst DD._spring_constant]. split.
  - intros Hk. destruct (Hnum Hk) as (x & -> & Hx). simpl. lra.
  - done.
Qed.

(** *** The target of a distance restraint *)



(** The constructor without a target leaves in [_target] the value the
    header gives it, whatever the floor is. *)
Lemma construct_target `{Atomstruct.Host} `{D.Header} a1 a2 mgr r :
  DD.construct a1 a2 mgr = Ok r →
  DD.get_target r = Double.Fin D._target_initial.
Proof.
  unfold DD.construct. destruct (D.bonded a1 a2); [done|]. by intros [= <-].
Qed.




(** *** The constructor of a distance restraint *)

(** The constructor of [Distance_Restraint] that takes a target and a
    spring constant throws for two bonded atoms; for two atoms that are
    not bonded it returns a restraint between them, owned by the manager
    given and disabled; its target is at or above the floor when the
    target given is not NaN, its spring constant is within its range when
    the constant given is not NaN, and a NaN given for either is
    stored. *)
Theorem construct_with_double `{Atomstruct.Host} `{D.Header}
    this a1 a2 mgr target k ct :
  (D.bonded a1 a2 = true →
   DD.construct_with this a1 a2 mgr target k ct
   = Throw (logic_error D.err_msg_bonded))
  ∧ (D.bonded a1 a2 = false →
     ∃ r ct', DD.construct_with this a1 a2 mgr target k ct = Ok (r, ct')
       ∧ DD.atoms r = (a1, a2)
       ∧ DD._mgr r = mgr
       ∧ DD.enabled r = false
       ∧ (target ≠ Double.NaN →
          Double.le (Double.Fin MIN_DISTANCE_RESTRAINT_TARGET) (DD.get_target r))
       ∧ (target = Double.NaN → DD.get_target r = Double.NaN)
       ∧ (k ≠ Double.NaN →
          Double.le (Double.Fin 0) (DD.get_k r)
          ∧ Double.le (DD.get_k r) (Double.Fin MAX_LINEAR_SPRING_CONSTANT))
       ∧ (k = Double.NaN → DD.get_k r = Double.NaN)).
Proof.
  unfold DD.construct_with, DD.construct. split; intros ->; [done|].
  simpl. eexists _, _. split; [reflexivity|].
  pose proof (set_target_stored this target
                (DD.mk (a1, a2) mgr (Double.Fin D._target_initial)
                   (Double.Fin 0) false) ct) as (_ & _ & Htarget & Htarget').
  pose proof (set_k_stored this k
                (DD.mk (a1, a2) mgr (Double.Fin D._target_initial)
                   (Double.Fin 0) false) ct) as [Hk Hk'].
  split_and!; done.
Qed.

(** On the sample host the atoms 1 and 2 are bonded, the atoms 1 and 3 are
    not. *)
Lemma construct_with_double_witness :
  @DD.construct_with Sample.host Sample.header 41 1 2 31
     (Double.Fin (-3)) Double.PInf []
  = Throw (logic_error (@D.err_msg_bonded Sample.header))
  ∧ ∃ r ct',
      @DD.construct_with Sample.host Sample.header 41 1 3 31
         (Double.Fin (-3)) Double.PInf []
      = Ok (r, ct')
      ∧ DD.atoms r = (1%positive, 3%positive)
      ∧ DD._mgr r = 31%positive
      ∧ DD.enabled r = false
      ∧ Double.le (Double.Fin MIN_DISTANCE_RESTRAINT_TARGET) (DD.get_target r)
      ∧ Double.le (Double.Fin 0) (DD.get_k r)
      ∧ Double.le (DD.get_k r) (Double.Fin MAX_LINEAR_SPRING_CONSTANT).
Proof.
  split.
  - apply (proj1 (@construct_with_double Sample.host Sample.header
                    41%positive 1%positive 2%positive 31%positive
                    (Double.Fin (-3)) Double.PInf [])).
    vm_compute. reflexivity.
  - destruct (proj2 (@construct_with_double Sample.host Sample.header
                       41%positive 1%positive 3%positive 31%positive
                       (Double.Fin (-3)) Double.PInf []))
      as (r & ct' & Hok & Hatoms & Hmgr & Henabled & Htarget & _ & Hk & _).
    { vm_compute. reflexivity. }
    exists r, ct'. split_and!; try done.
    + by apply Htarget.
    + by apply Hk.
    + by apply Hk.
Defined.

(** *** The radius after [set_k] *)

(** After [set_k] of a spring constant that is not NaN, [radius()] is a
    finite number between [LINEAR_RESTRAINT_MIN_RADIUS] and
    [LINEAR_RESTRAINT_MAX_RADIUS]; after [set_k] of a NaN it is NaN. For
    distance restraints and for position restraints. *)
Theorem radius_after_set_k this v ct :
  (∀ r : DD.t,
     (v ≠ Double.NaN →
      ∃ x, DD.radius (DD.set_k this v r ct).1 = Double.Fin x
           ∧ LINEAR_RESTRAINT_MIN_RADIUS <= x <= LINEAR_RESTRAINT_MAX_RADIUS)
     ∧ (v = Double.NaN → DD.radius (DD.set_k this v r ct).1 = Double.NaN))
  ∧ (∀ r : PD.t,
       (v ≠ Double.NaN →
        ∃ x, PD.radius (PD.set_k this v r ct).1 = Double.Fin x
             ∧ LINEAR_RESTRAINT_MIN_RADIUS <= x <= LINEAR_RESTRAINT_MAX_RADIUS)
       ∧ (v = Double.NaN → PD.radius (PD.set_k this v r ct).1 = Double.NaN)).
Proof.
  pose proof Restraint_Facts.MAX_LINEAR_SPRING_CONSTANT_pos as Hmax.
  destruct (clamp_k_stored v) as [Hnum Hnan]. cbv zeta in Hnum, Hnan.
  assert (∀ k, 0 <= k <= MAX_LINEAR_SPRING_CONSTANT →
               0 <= k / MAX_LINEAR_SPRING_CONSTANT <= 1) as Hratio.
  { intros k [Hlo Hhi]. split.
    - apply Rmult_le_reg_r with MAX_LINEAR_SPRING_CONSTANT; [done|].
      unfold Rdiv. rewrite Rmult_assoc, Rinv_l by lra. lra.
    - apply Rmult_le_reg_r with MAX_LINEAR_SPRING_CONSTANT; [done|].
      unfold Rdiv. rewrite Rmult_assoc, Rinv_l by lra. lra. }
  split; intros r; split.
  - intros Hv. destruct (Hnum Hv) as (k & Hk & Hrange).
    unfold DD.radius, DD.set_k. cbn [fst DD._spring_constant].
    rewrite Hk. simpl.
    destruct (Hratio k Hrange) as [Hq0 Hq1].
    destruct (Rlt_dec (k / MAX_LINEAR_SPRING_CONSTANT) 0) as [Hneg|_]; [lra|].
    eexists. split; [reflexivity|].
    pose proof (sqrt_pos (k / MAX_LINEAR_SPRING_CONSTANT)) as Hs0.
    assert (sqrt (k / MAX_LINEAR_SPRING_CONSTANT) <= 1) as Hs1.
    { rewrite <-sqrt_1. by apply sqrt_le_1_alt. }
    unfold LINEAR_RESTRAINT_MAX_RADIUS, LINEAR_RESTRAINT_MIN_RADIUS. nra.
  - intros Hv. unfold DD.radius, DD.set_k. cbn [fst DD._spring_constant].
    by rewrite (Hnan Hv).
  - intros Hv. destruct (Hnum Hv) as (k & Hk & Hrange).
    unfold PD.radius, PD.set_k. cbn [fst PD._spring_constant].
    rewrite Hk. simpl.
    destruct (Hratio k Hrange) as [Hq0 Hq1].
    eexists. split; [reflexivity|].
    unfold LINEAR_RESTRAINT_MAX_RADIUS, LINEAR_RESTRAINT_MIN_RADIUS. nra.
  - intros Hv. unfold PD.radius, PD.set_k. cbn [fst PD._spring_constant].
    by rewrite (Hnan Hv).
Qed.

(** On the two sample restraints: a spring constant of plus infinity,
    which [set_k] stores as [MAX_LINEAR_SPRING_CONSTANT], gives a radius
    within the two, and a NaN gives a NaN. *)
Lemma radius_after_set_k_witness :
  (∃ x, DD.radius (DD.set_k 41 Double.PInf Sample_More.distance_restraint []).1
        = Double.Fin x
        ∧ LINEAR_RESTRAINT_MIN_RADIUS <= x <= LINEAR_RESTRAINT_MAX_RADIUS)
  ∧ (∃ x, PD.radius (PD.set_k 40 (Double.Fin (-7)) Sample_More.position_restraint []).1
          = Double.Fin x
          ∧ LINEAR_RESTRAINT_MIN_RADIUS <= x <= LINEAR_RESTRAINT_MAX_RADIUS)
  ∧ DD.radius (DD.set_k 41 Double.NaN Sample_More.distance_restraint []).1
    = Double.NaN
  ∧ PD.radius (PD.set_k 40 Double.NaN Sample_More.position_restraint []).1
    = Double.NaN.
Proof.
  split_and!.
  - apply (proj1 (proj1 (radius_after_set_k 41%positive Double.PInf [])
                    Sample_More.distance_restraint)).
    discriminate.
  - apply (proj1 (proj2 (radius_after_set_k 40%positive (Double.Fin (-7)) [])
                    Sample_More.position_restraint)).
    discriminate.
  - apply (proj2 (proj1 (radius_after_set_k 41%positive Double.NaN [])
                    Sample_More.distance_restraint)).
    reflexivity.
  - apply (proj2 (proj2 (radius_after_set_k 40%positive Double.NaN [])
                    Sample_More.position_restraint)).
    reflexivity.
Defined.

(** *** Sequences of setter calls on a distance restraint *)

Lemma step_k_kept this o s :
  DD.k_is_number o →
  Double.le (Double.Fin 0) (DD.get_k s.1)
  ∧ Double.le (DD.get_k s.1) (Double.Fin MAX_LINEAR_SPRING_CONSTANT) →
  Double.le (Double.Fin 0) (DD.get_k (DD.step this o s).1)
  ∧ Double.le (DD.get_k (DD.step this o s).1)
      (Double.Fin MAX_LINEAR_SPRING_CONSTANT).
Proof.
  intros Ho Hinv. destruct o as [target|k|flag]; unfold DD.step.
  - done.
  - by apply set_k_stored.
  - unfold DD.set_enabled. by case_decide.
Qed.

Lemma run_k_kept this os s :
  Forall DD.k_is_number os →
  Double.le (Double.Fin 0) (DD.get_k s.1)
  ∧ Double.le (DD.get_k s.1) (Double.Fin MAX_LINEAR_SPRING_CONSTANT) →
  Double.le (Double.Fin 0) (DD.get_k (DD.run this os s).1)
  ∧ Double.le (DD.get_k (DD.run this os s).1)
      (Double.Fin MAX_LINEAR_SPRING_CONSTANT).
Proof.
  revert s. induction os as [|o os IH]; intros s Hos Hinv; [done|].
  apply Forall_cons in Hos as [Ho Hos].
  simpl. apply IH; [done|]. by apply step_k_kept.
Qed.

(** A spring constant within [0, MAX_LINEAR_SPRING_CONSTANT] stays within
    it under every sequence of setter calls that passes no NaN to
    [set_k]; such a sequence that starts with [set_k] ends within the
    range whatever the constant was before; and [set_k] of a NaN stores
    the NaN, which is outside the range. *)
Theorem spring_constant_kept this :
  (∀ os s,
     Forall DD.k_is_number os →
     Double.le (Double.Fin 0) (DD.get_k s.1)
     ∧ Double.le (DD.get_k s.1) (Double.Fin MAX_LINEAR_SPRING_CONSTANT) →
     Double.le (Double.Fin 0) (DD.get_k (DD.run this os s).1)
     ∧ Double.le (DD.get_k (DD.run this os s).1)
         (Double.Fin MAX_LINEAR_SPRING_CONSTANT))
  ∧ (∀ os k s,
       Forall DD.k_is_number (DD.Set_k k :: os) →
       Double.le (Double.Fin 0) (DD.get_k (DD.run this (DD.Set_k k :: os) s).1)
       ∧ Double.le (DD.get_k (DD.run this (DD.Set_k k :: os) s).1)
           (Double.Fin MAX_LINEAR_SPRING_CONSTANT))
  ∧ (∀ r ct,
       DD.get_k (DD.set_k this Double.NaN r ct).1 = Double.NaN
       ∧ ¬ Double.le (Double.Fin 0) (DD.get_k (DD.set_k this Double.NaN r ct).1)).
Proof.
  split_and!.
  - apply run_k_kept.
  - intros os k s [Hk Hos]%Forall_cons. simpl.
    apply run_k_kept; [done|]. by apply set_k_stored.
  - intros r ct. split; [reflexivity|]. simpl. tauto.
Qed.

Lemma spring_constant_kept_witness :
  (Double.le (Double.Fin 0)
     (DD.get_k
        (DD.run 41 [DD.Set_target Double.NaN; DD.Set_k (Double.Fin 200000);
                    DD.Set_enabled true]
           (Sample_More.distance_restraint, [])).1)
   ∧ Double.le
       (DD.get_k
          (DD.run 41 [DD.Set_target Double.NaN; DD.Set_k (Double.Fin 200000);
                      DD.Set_enabled true]
             (Sample_More.distance_restraint, [])).1)
       (Double.Fin MAX_LINEAR_SPRING_CONSTANT))
  ∧ (Double.le (Double.Fin 0)
       (DD.get_k
          (DD.run 41 [DD.Set_k Double.NInf; DD.Set_enabled true]
             (DD.set_k 41 Double.NaN Sample_More.distance_restraint [])).1)
     ∧ Double.le
         (DD.get_k
            (DD.run 41 [DD.Set_k Double.NInf; DD.Set_enabled true]
               (DD.set_k 41 Double.NaN Sample_More.distance_restraint [])).1)
         (Double.Fin MAX_LINEAR_SPRING_CONSTANT)).
Proof.
  split.
  - apply (proj1 (spring_constant_kept 41%positive)).
    + repeat constructor; discriminate.
    + unfold MAX_LINEAR_SPRING_CONSTANT. simpl. lra.
  - apply (proj1 (proj2 (spring_constant_kept 41%positive))).
    repeat constructor; discriminate.
Defined.

End Restraint_Double_Facts.
